(** * cafe-test: the nearby-cafes geo-cache resolver and the rate limiter

    A shallow embedding of
      - [app/api/cafes/route.ts]     (the [GET] handler: [toNumber], [clamp],
                                      [roundCoord], [cacheKey], [GET]),
      - [lib/google/places.ts]       ([searchNearbyPlaces]),
      - [lib/rateLimit.ts]           ([getClientIp], [enforceRateLimit]),
      - [app/api/checkins/route.ts]  (the [POST] handler).

    Modelling conventions.
      - A JavaScript [number] that the code has already checked to be finite is
        given by its rational value in [Q] (a rational that is not a binary64
        double stands for the double nearest to it, which is what [Number]
        makes of its decimal text).  Comparisons, [Math.max], [Math.min] and
        [Math.round] are exact on doubles and are computed on the rational
        values; the multiplication and the division of [roundCoord] round
        their exact result to binary64 ([fl]).  The expiry
        [Date.now() + ttlSeconds * 1000] is computed on the rational values,
        which is what the code computes when the time to live is a whole
        number of seconds.
      - A string is a sequence of code units below 256, as the values of HTTP
        headers are.
      - The two configuration variables are unset or hold a finite number
        (an integer for the precision).
      - The clock advances only while a call is awaited: two readings of
        the clock with no call between them coincide.
      - Instants ([Date] values, ISO timestamps in the tables) are [Z]
        milliseconds since the epoch.
      - The handlers run in a small state-and-exception monad over a [World]
        (tables of the store, the clock, the trace of collaborator calls).
        What the outside decides (configuration, failures of store calls,
        latencies, the answer of the places API) is an [Environment]. *)

From Stdlib Require Import Ascii String QArith Qminmax Qround Qabs Lqa Lia.
From Stdlib Require Import Sorted Permutation.
From stdpp Require Import base strings list gmap pretty.

Local Open Scope Z_scope.

(** ** Primitives of the JavaScript runtime *)

Module JS.

(** [Math.max], [Math.min] on finite numbers. *)
Definition Math_max (a b : Q) : Q := Qmax a b.
Definition Math_min (a b : Q) : Q := Qmin a b.

(** [Math.round x]: the integer nearest to [x]; when the fractional part
    is exactly one half the result is the next integer towards +infinity
    (ECMA-262, Math.round), that is [floor (x + 1/2)].  The result is
    exact: below [2^52] in magnitude that integer is a double, and a
    double from [2^52] on is an integer already. *)
Definition Math_round (x : Q) : Q := inject_Z (Qfloor (x + (1 # 2))%Q).

(** What an arithmetic operation on numbers yields: the rational value of
    a finite double, an infinity or NaN.  (The two zeros are not told
    apart: the code prints and stores both as 0.) *)
Inductive double :=
| Num (q : Q)
| PosInfinity
| NegInfinity
| NaN.

(** [2^s] for an integer [s] of either sign. *)
Definition pow2 (s : Z) : Q :=
  if 0 <=? s then inject_Z (2 ^ s) else 1 # Z.to_pos (2 ^ (- s)).

(** The exponent [e] with [2^e <= |q| < 2^(e+1)], for [q] other than 0. *)
Definition binade (q : Q) : Z :=
  let e0 := Z.log2 (Z.abs (Qnum q)) - Z.log2 (Z.pos (Qden q)) in
  if Qle_bool (pow2 e0) (Qabs q) then e0 else e0 - 1.

(** The integer nearest to [x], the even one of the two when [x] is half
    way between them. *)
Definition round_half_even (x : Q) : Z :=
  let m := Qfloor x in
  match (x - inject_Z m ?= 1 # 2)%Q with
  | Lt => m
  | Gt => m + 1
  | Eq => if Z.even m then m else m + 1
  end.

(** Rounding to binary64 (IEEE 754, round to nearest, ties to even): a
    significand of 53 bits, the unit in the last place no smaller than
    [2^-1074], and an infinity when the rounded value reaches [2^1024].
    Every arithmetic operation of JavaScript returns its exact result
    rounded in this way. *)
Definition fl (q : Q) : double :=
  if Qeq_bool q 0 then Num 0
  else
    let u := Z.max (binade q - 52) (-1074) in
    let m := round_half_even (Qabs q / pow2 u) in
    let v := Qred (inject_Z m * pow2 u) in
    if Qle_bool (pow2 1024) v
    then (if Qle_bool 0 q then PosInfinity else NegInfinity)
    else Num (if Qle_bool 0 q then v else Qred (- v)).

(** [Math.pow b e], for an integer-valued exponent [e] (the only way the
    code calls it: the precision is an integer between 2 and 5, and the
    powers [10^2] to [10^5] are doubles). *)
Definition Math_pow (b e : Q) : Q := (b ^ Qfloor e)%Q.

(** [new Date(x)] for a finite time value [x]: the time value is truncated
    towards zero to a whole number of milliseconds (TimeClip). *)
Definition new_Date (x : Q) : Z := Z.quot (Qnum x) (Z.pos (Qden x)).

(** [Math.ceil]. *)
Definition Math_ceil (x : Q) : Q := inject_Z (Qceiling x).

(** Truthiness of a string: every string but the empty one. *)
Definition truthy (s : string) : bool :=
  match s with EmptyString => false | String _ _ => true end.

(** [s.startsWith(t)] and [s.includes(t)]. *)
Fixpoint startsWith (s t : string) : bool :=
  match t, s with
  | EmptyString, _ => true
  | String _ _, EmptyString => false
  | String b t', String a s' => Ascii.eqb a b && startsWith s' t'
  end.

Fixpoint includes (s t : string) : bool :=
  startsWith s t ||
  match s with
  | EmptyString => false
  | String _ s' => includes s' t
  end.

(** White space removed by [trim]: the code units below 256 of the
    ECMAScript WhiteSpace and LineTerminator classes, which are U+0009 to
    U+000D, U+0020 and the no-break space U+00A0. *)
Definition is_space (a : ascii) : bool :=
  let n := N_of_ascii a in
  ((9 <=? n) && (n <=? 13))%N || (n =? 32)%N || (n =? 160)%N.

Fixpoint trimStart (s : string) : string :=
  match s with
  | EmptyString => EmptyString
  | String a s' => if is_space a then trimStart s' else s
  end.

Fixpoint trimEnd (s : string) : string :=
  match s with
  | EmptyString => EmptyString
  | String a s' =>
      match trimEnd s' with
      | EmptyString => if is_space a then EmptyString else String a EmptyString
      | r => String a r
      end
  end.

Definition trim (s : string) : string := trimEnd (trimStart s).

(** [s.split(",")[0]]: the part of [s] before its first comma. *)
Fixpoint split_comma_0 (s : string) : string :=
  match s with
  | EmptyString => EmptyString
  | String a s' =>
      if Ascii.eqb a ","%char then EmptyString else String a (split_comma_0 s')
  end.

(** The result of [Number(value)] on a string of the query. *)
Inductive number :=
| Finite (q : Q)
| NotFinite.   (* NaN, Infinity, -Infinity *)

(** A thrown value or a store [error] object; the handlers read only its
    [message]. *)
Record Error := { message : option string }.

End JS.
Export JS.

(** What the code takes from its runtime libraries and we leave abstract:
    the conversion of a number to a string inside a template literal, and
    node's [crypto.createHash("sha256").update(s).digest("base64url")]. *)
Class Runtime := {
  number_to_string : Q -> string;
  sha256_digest_base64url : string -> string;
}.

(** A number inside a template literal. *)
Definition String_of `{Runtime} (d : double) : string :=
  match d with
  | Num q => number_to_string q
  | PosInfinity => "Infinity"
  | NegInfinity => "-Infinity"
  | NaN => "NaN"
  end.

(** ** Data model *)

(** [GooglePlace] of lib/google/places.ts, as it comes out of the JSON
    answer: any field may be missing. *)
Record GooglePlace := {
  gp_id : option string;
  gp_displayName : option (option string);      (* displayName?: { text? } *)
  gp_formattedAddress : option string;
  gp_location : option (Q * Q);                 (* latitude, longitude *)
  gp_rating : option Q;
  gp_userRatingCount : option Q;
  gp_priceLevel : option string;
  gp_types : option (list string);
}.

(** The columns of a row of [cafes] that the resolver writes and reads. *)
Record CafeFields := {
  name : string;
  address : option string;
  lat : Q;
  lng : Q;
  google_rating : option Q;
  user_ratings_total : option Q;
  price_level : option Z;
  types : option (list string);
}.

(** An element of [cafesToUpsert]. *)
Record CafeUpsert := {
  place_id : string;
  up_fields : CafeFields;
  up_last_fetched_at : Z;
  up_updated_at : Z;
}.

(** A stored row of [cafes]; the table is keyed by its unique [place_id],
    [id] is assigned by the database when the row is inserted. *)
Record CafeRow := {
  id : string;
  row_fields : CafeFields;
  last_fetched_at : Z;
  updated_at : Z;
}.

(** What [select("id, place_id, name, ..., types")] returns for a row. *)
Record Cafe := {
  cafe_id : string;
  cafe_place_id : string;
  cafe_fields : CafeFields;
}.

(** A stored row of [places_cache]; the table is keyed by [cache_key]. *)
Record CacheRow := {
  lat_center : double;
  lng_center : double;
  radius_m : Q;
  place_ids : option (list string);   (* a nullable array column *)
  fetched_at : Z;
  expires_at : Z;
}.

(** A row of [checkins]. *)
Record CheckIn := {
  checkin_id : string;
  checkin_cafe_id : string;
  created_at : Z;
}.

(** The answer of [fetch] in [searchNearbyPlaces]. *)
Inductive FetchResult :=
| FetchOk (places : option (list GooglePlace))   (* res.ok, json.places *)
| FetchNotOk (status : Z) (text : string)        (* !res.ok *)
| FetchRejected (e : Error).                     (* network error, timeout *)

(** The awaited collaborator calls. *)
Inductive Call :=
| RpcRateLimitHit
| SelectPlacesCache
| SelectCafesIn
| FetchPlaces
| UpsertCafes
| UpsertPlacesCache
| SelectCafeById
| InsertCheckin.

Global Instance Call_eq_dec : EqDecision Call.
Proof. solve_decision. Defined.

(** The trace of collaborator calls, in the order they are made. *)
Inductive Event :=
| EvRateLimitHit (p_route p_ip_hash : string) (p_window_seconds p_limit : Z)
| EvSelectPlacesCache (key : string)
| EvSelectCafesIn (ids : list string)
| EvFetchPlaces (lat lng radiusM : Q)
| EvUpsertCafes (ids : list string)
| EvUpsertPlacesCache (key : string) (row : CacheRow)
| EvSelectCafeById (cafeId : string)
| EvInsertCheckin (cafeId : string).

Definition is_rate_limit_event (e : Event) : bool :=
  match e with EvRateLimitHit _ _ _ _ => true | _ => false end.

Definition is_upstream_event (e : Event) : bool :=
  match e with EvFetchPlaces _ _ _ => true | _ => false end.

(** The events of the Geo-Cache Resolver: its cache lookup, its upstream
    fetch and its writes and reads of places. *)
Definition is_resolver_event (e : Event) : bool :=
  match e with
  | EvSelectPlacesCache _ | EvSelectCafesIn _ | EvFetchPlaces _ _ _
  | EvUpsertCafes _ | EvUpsertPlacesCache _ _ => true
  | _ => false
  end.

Definition upstream_calls (tr : list Event) : nat :=
  length (List.filter is_upstream_event tr).

(** The row the [rate_limit_hit] procedure answers with. *)
Record RateLimitRow := {
  rl_allowed : option bool;
  rl_used : option Z;
  rl_limit : option Z;
  rl_reset_at : option Z;
}.

(** The [data] of [supabase.rpc]: "supabase sometimes returns array". *)
Inductive RpcData :=
| DataArray (rows : list RateLimitRow)
| DataObject (row : RateLimitRow)
| DataNull.

(** ** The world *)

Record World := {
  places_cache : gmap string CacheRow;
  cafes : gmap string CafeRow;
  checkins : list CheckIn;
  rate_limits : gmap (string * string * Z) Z;   (* route, ip hash, window start *)
  next_id : nat;                                (* rows inserted so far *)
  clock : Z;                                    (* Date.now() *)
  trace : list Event;
}.

Record Environment := {
  (** process.env: unset, or set to a number (an integer for the precision) *)
  PLACES_QUERY_LATLNG_PRECISION : option Z;
  PLACES_CACHE_TTL_SECONDS : option Q;
  (** the [error] a store call answers with, if any *)
  store_error : Call -> option Error;
  (** milliseconds that pass while a call is awaited *)
  latency : Call -> Z;
  (** the places API *)
  places_api : Q -> Q -> Q -> FetchResult;
  (** the [rate_limit_hit] procedure of the database *)
  rate_limit_hit :
    string -> string -> Z -> Z -> Z -> gmap (string * string * Z) Z ->
    RpcData * gmap (string * string * Z) Z;
  (** identifiers the database gives to inserted rows *)
  db_new_id : nat -> string;
}.


(** Modelled from the spec: the [rate_limit_hit] procedure lives in the
    database, not in the sources. Section 4.2: one atomic operation that
    increments and reads a counter scoped to (route, fingerprint, current
    window) and answers with the count and the reset time of the window,
    [allowed = (used <= limit)]. Windows are fixed, aligned on multiples of
    the window length. *)
Definition spec_rate_limit_hit
    (p_route p_ip_hash : string) (p_window_seconds p_limit now : Z)
    (tbl : gmap (string * string * Z) Z)
  : RpcData * gmap (string * string * Z) Z :=
  let len := p_window_seconds * 1000 in
  let start := (now / len) * len in
  let used := default 0 (tbl !! (p_route, p_ip_hash, start)) + 1 in
  (DataArray [ {| rl_allowed := Some (used <=? p_limit);
                  rl_used := Some used;
                  rl_limit := Some p_limit;
                  rl_reset_at := Some (start + len) |} ],
   <[(p_route, p_ip_hash, start) := used]> tbl).

(** ** The monad of the handlers *)

Inductive Outcome (A : Type) :=
| Returned (a : A)
| Thrown (e : Error).
Arguments Returned {A} a.
Arguments Thrown {A} e.

Definition M (A : Type) : Type := World -> Outcome A * World.

Definition ret {A} (a : A) : M A := fun w => (Returned a, w).
Definition throw {A} (e : Error) : M A := fun w => (Thrown e, w).
Definition bind {A B} (m : M A) (k : A -> M B) : M B :=
  fun w =>
    match m w with
    | (Returned a, w') => k a w'
    | (Thrown e, w') => (Thrown e, w')
    end.

Notation "'let!' x ':=' m 'in' k" := (bind m (fun x => k))
  (at level 10, x pattern, m at level 100, k at level 200).

(** [try { ... } catch (err) { ... }] *)
Definition try_catch {A} (m : M A) (h : Error -> A) : World -> A * World :=
  fun w =>
    match m w with
    | (Returned a, w') => (a, w')
    | (Thrown e, w') => (h e, w')
    end.

(** [Date.now()], [new Date()] *)
Definition Date_now : M Z := fun w => (Returned (clock w), w).

Definition set_trace (tr : list Event) (w : World) : World :=
  {| places_cache := places_cache w; cafes := cafes w; checkins := checkins w;
     rate_limits := rate_limits w; next_id := next_id w; clock := clock w;
     trace := tr |}.

Definition set_clock (t : Z) (w : World) : World :=
  {| places_cache := places_cache w; cafes := cafes w; checkins := checkins w;
     rate_limits := rate_limits w; next_id := next_id w; clock := t;
     trace := trace w |}.

Definition set_places_cache (m : gmap string CacheRow) (w : World) : World :=
  {| places_cache := m; cafes := cafes w; checkins := checkins w;
     rate_limits := rate_limits w; next_id := next_id w; clock := clock w;
     trace := trace w |}.

Definition set_cafes (m : gmap string CafeRow) (n : nat) (w : World) : World :=
  {| places_cache := places_cache w; cafes := m; checkins := checkins w;
     rate_limits := rate_limits w; next_id := n; clock := clock w;
     trace := trace w |}.

Definition set_checkins (l : list CheckIn) (n : nat) (w : World) : World :=
  {| places_cache := places_cache w; cafes := cafes w; checkins := l;
     rate_limits := rate_limits w; next_id := n; clock := clock w;
     trace := trace w |}.

Definition set_rate_limits (m : gmap (string * string * Z) Z) (w : World) : World :=
  {| places_cache := places_cache w; cafes := cafes w; checkins := checkins w;
     rate_limits := m; next_id := next_id w; clock := clock w;
     trace := trace w |}.

(** Awaiting a collaborator call: the call is made (and recorded), time
    passes, and the continuation resumes. *)
Definition await (E : Environment) (c : Call) (ev : Event) : M unit :=
  fun w =>
    (Returned tt, set_clock (clock w + latency E c) (set_trace (trace w ++ [ev]) w)).

(** A store call answers [{ data, error }]: the handlers throw the [error]
    when there is one. *)
Definition or_throw {A} (E : Environment) (c : Call) (data : M A) : M A :=
  match store_error E c with
  | Some e => throw e
  | None => data
  end.

(** ** Requests and responses *)

(** A body field read by [POST]: a string, or a value of another type. *)
Inductive JsonField :=
| JString (s : string)
| JOther.

Record Request := {
  (** [req.headers]: header names are lower-cased by the Headers class *)
  headers : gmap string string;
  (** [url.searchParams]: a parameter that is present is kept as what
      [Number] makes of its text *)
  searchParams : gmap string JS.number;
  (** [await req.json()] followed by [body.cafeId]: the error thrown when
      the body cannot be read, otherwise the [cafeId] field if there is one *)
  json : Error + option JsonField;
}.

Inductive Body :=
| NearbyBody (source cacheKey : string) (radiusM : Q) (cafes : list Cafe)
| ErrorBody (error : string)
| RateLimitBody (error : string) (used limit : Z) (resetAt : Z)
| CheckInBody (success : bool) (checkIn : CheckIn).

Record Response := {
  status : Z;
  retry_after : option Q;    (* the Retry-After header *)
  body : Body;
}.

Definition json_response (st : Z) (b : Body) : Response :=
  {| status := st; retry_after := None; body := b |}.

(** The [catch] clause of both handlers. *)
Definition internal_error (err : Error) : Response :=
  json_response 500 (ErrorBody (default "Unknown error"%string (message err))).

(** The result of [enforceRateLimit]. *)
Record RateLimitResult := {
  allowed : bool;
  used : Z;
  limit : Z;
  resetAt : Z;
}.

(** ** app/api/cafes/route.ts: the pure helpers *)

Definition toNumber (value : option JS.number) : option Q :=
  match value with
  | None => None
  | Some (Finite n) => Some n
  | Some NotFinite => None
  end.

Definition clamp (n min max : Q) : Q := Math_max min (Math_min max n).

(** [Math.round(n * f) / f].  The argument [n] is a double ([fl n] is [n]
    itself then); the product and the quotient are rounded to binary64; a
    product that overflows stays infinite through [Math.round] and the
    division by the positive [f]. *)
Definition roundCoord (n precision : Q) : double :=
  let f := Math_pow 10 precision in
  match fl n with
  | Num x =>
      match fl (x * f) with
      | Num y => fl (Math_round y / f)
      | d => d
      end
  | d => d
  end.

Definition cacheKey `{Runtime} (lat lng radiusM precision : Q) : string :=
  let rLat := roundCoord lat precision in
  let rLng := roundCoord lng precision in
  "nearby:" +:+ String_of rLat +:+ ":" +:+ String_of rLng
    +:+ ":r=" +:+ number_to_string radiusM.

(** The chain of conditionals that computes [priceLevelInt]. *)
Definition priceLevelInt (priceLevel : option string) : option Z :=
  match priceLevel with
  | None => None
  | Some s =>
      if includes s "FREE" then Some 0
      else if includes s "INEXPENSIVE" then Some 1
      else if includes s "MODERATE" then Some 2
      else if includes s "EXPENSIVE" then Some 3
      else if includes s "VERY_EXPENSIVE" then Some 4
      else None
  end.

(** The callback of [places.map]: [None] is the [null] that
    [filter(Boolean)] removes; [now] is what [new Date()] reads. *)
Definition normalize (now : Z) (p : GooglePlace) : option CafeUpsert :=
  match gp_id p, gp_location p with
  | Some pid, Some (latitude, longitude) =>
      if truthy pid then
        Some {| place_id := pid;
                up_fields :=
                  {| name := default "Unknown"%string (mjoin (gp_displayName p));
                     address := gp_formattedAddress p;
                     lat := latitude;
                     lng := longitude;
                     google_rating := gp_rating p;
                     user_ratings_total := gp_userRatingCount p;
                     price_level := priceLevelInt (gp_priceLevel p);
                     types := gp_types p |};
                up_last_fetched_at := now;
                up_updated_at := now |}
      else None
  | _, _ => None
  end.

(** [cacheRow && new Date(cacheRow.expires_at) > now && cacheRow.place_ids?.length] *)
Definition usable (cacheRow : option CacheRow) (now : Z) : bool :=
  match cacheRow with
  | None => false
  | Some row =>
      (now <? expires_at row) &&
      match place_ids row with
      | None => false
      | Some ids => negb (length ids =? 0)%nat
      end
  end.

(** ** The store *)

(** Rows of [cafes] whose [place_id] is one of [ids], with the selected
    columns. *)
Definition cafes_in (ids : list string) (tbl : gmap string CafeRow) : list Cafe :=
  (fun kr : string * CafeRow =>
     {| cafe_id := id kr.2; cafe_place_id := kr.1; cafe_fields := row_fields kr.2 |})
  <$> filter (fun kr : string * CafeRow => kr.1 ∈ ids) (map_to_list tbl).

(** INSERT ... ON CONFLICT (place_id) DO UPDATE of one row. *)
Definition upsert_cafe (E : Environment)
    (acc : gmap string CafeRow * nat) (u : CafeUpsert) : gmap string CafeRow * nat :=
  let row i := {| id := i; row_fields := up_fields u;
                  last_fetched_at := up_last_fetched_at u;
                  updated_at := up_updated_at u |} in
  match acc.1 !! place_id u with
  | Some old => (<[place_id u := row (id old)]> acc.1, acc.2)
  | None => (<[place_id u := row (db_new_id E acc.2)]> acc.1, S acc.2)
  end.

Section Handlers.

Context {rt : Runtime} (E : Environment).

(** A call to the store: [const { data, error } = await ...] followed by
    [if (error) throw error]. A call that answers with an error has not
    changed the tables. *)
Definition store_call {A} (c : Call) (ev : Event) (data : M A) : M A :=
  let! _ := await E c ev in
  or_throw E c data.

Definition select_places_cache (key : string) : M (option CacheRow) :=
  store_call SelectPlacesCache (EvSelectPlacesCache key)
    (fun w => (Returned (places_cache w !! key), w)).

Definition select_cafes_in (ids : list string) : M (list Cafe) :=
  store_call SelectCafesIn (EvSelectCafesIn ids)
    (fun w => (Returned (cafes_in ids (cafes w)), w)).

Definition upsert_cafes (rows : list CafeUpsert) : M unit :=
  store_call UpsertCafes (EvUpsertCafes (place_id <$> rows))
    (fun w =>
       let r := foldl (upsert_cafe E) (cafes w, next_id w) rows in
       (Returned tt, set_cafes r.1 r.2 w)).

Definition upsert_places_cache (key : string) (row : CacheRow) : M unit :=
  store_call UpsertPlacesCache (EvUpsertPlacesCache key row)
    (fun w => (Returned tt, set_places_cache (<[key := row]> (places_cache w)) w)).

Definition select_cafe_by_id (cafeId : string) : M (option CafeRow) :=
  store_call SelectCafeById (EvSelectCafeById cafeId)
    (fun w =>
       (Returned
          (snd <$> head (filter (fun kr : string * CafeRow => id kr.2 = cafeId)
                                (map_to_list (cafes w)))), w)).

Definition insert_checkin (cafeId : string) (now : Z) : M CheckIn :=
  store_call InsertCheckin (EvInsertCheckin cafeId)
    (fun w =>
       let c := {| checkin_id := db_new_id E (next_id w);
                   checkin_cafe_id := cafeId; created_at := now |} in
       (Returned c, set_checkins (checkins w ++ [c]) (S (next_id w)) w)).

(** ** lib/google/places.ts *)

Definition searchNearbyPlaces (lat lng radiusM : Q) : M (list GooglePlace) :=
  let! _ := await E FetchPlaces (EvFetchPlaces lat lng radiusM) in
  match places_api E lat lng radiusM with
  | FetchRejected e => throw e
  | FetchNotOk st text =>
      throw {| message :=
                 Some ("Google Places error " +:+ number_to_string (inject_Z st)
                         +:+ ": " +:+ text) |}
  | FetchOk places => ret (default [] places)
  end.

(** ** app/api/cafes/route.ts: GET *)

(** The constants [radiusM], [precision], [ttlSeconds] and [key] of the
    handler. *)
Definition GET_radiusM (req : Request) : Q :=
  let radius := toNumber (searchParams req !! "radius"%string) in
  clamp (default 1500%Q radius) 200 5000.

Definition GET_precision : Q :=
  clamp (inject_Z (default 3 (PLACES_QUERY_LATLNG_PRECISION E))) 2 5.

Definition GET_ttlSeconds : Q :=
  clamp (default 900%Q (PLACES_CACHE_TTL_SECONDS E)) 60 86400.

Definition GET_key (req : Request) (lat lng : Q) : string :=
  cacheKey lat lng (GET_radiusM req) GET_precision.

Definition GET_try (req : Request) : M Response :=
  let lat := toNumber (searchParams req !! "lat"%string) in
  let lng := toNumber (searchParams req !! "lng"%string) in
  match lat, lng with
  | Some lat, Some lng =>
      let radiusM := GET_radiusM req in
      let precision := GET_precision in
      let ttlSeconds := GET_ttlSeconds in
      let key := GET_key req lat lng in
      (* 1) Cache lookup *)
      let! cacheRow := select_places_cache key in
      let! now := Date_now in
      if usable cacheRow now then
        let! cafes := select_cafes_in (default [] (cacheRow ≫= place_ids)) in
        ret (json_response 200 (NearbyBody "cache" key radiusM cafes))
      else
        (* 2) Cache miss: call Google Places *)
        let! places := searchNearbyPlaces lat lng radiusM in
        let! t := Date_now in
        let cafesToUpsert := omap (normalize t) places in
        let! _ := (if (length cafesToUpsert =? 0)%nat then ret tt
                   else upsert_cafes cafesToUpsert) in
        let placeIds := place_id <$> cafesToUpsert in
        let! t' := Date_now in
        let expiresAt := new_Date (inject_Z t' + ttlSeconds * 1000)%Q in
        let! _ := upsert_places_cache key
                    {| lat_center := roundCoord lat precision;
                       lng_center := roundCoord lng precision;
                       radius_m := radiusM;
                       place_ids := Some placeIds;
                       fetched_at := t';
                       expires_at := expiresAt |} in
        let! cafes := select_cafes_in placeIds in
        ret (json_response 200 (NearbyBody "google" key radiusM cafes))
  | _, _ => ret (json_response 400 (ErrorBody "Missing/invalid lat or lng"))
  end.

Definition GET (req : Request) : World -> Response * World :=
  try_catch (GET_try req) internal_error.

(** ** lib/rateLimit.ts *)

Definition getClientIp (req : Request) : string :=
  let xff := headers req !! "x-forwarded-for"%string in
  match xff with
  | Some (String a s) => trim (split_comma_0 (String a s))
  | _ =>
      let realIp := headers req !! "x-real-ip"%string in
      match realIp with
      | Some (String a s) => trim (String a s)
      | _ => "0.0.0.0"%string
      end
  end.

Definition sha256Base64Url (input : string) : string :=
  sha256_digest_base64url input.

Definition enforceRateLimit (req : Request) (route : string)
    (limit windowSeconds : Z) : M RateLimitResult :=
  let ip := getClientIp req in
  let ipHash := sha256Base64Url ip in
  let! data :=
    store_call RpcRateLimitHit (EvRateLimitHit route ipHash windowSeconds limit)
      (fun w =>
         let r := rate_limit_hit E route ipHash windowSeconds limit
                    (clock w) (rate_limits w) in
         (Returned r.1, set_rate_limits r.2 w)) in
  let row := match data with
             | DataArray rows => head rows
             | DataObject r => Some r
             | DataNull => None
             end in
  let! now := Date_now in
  ret {| allowed := default false (row ≫= rl_allowed);
         used := default 0 (row ≫= rl_used);
         limit := default limit (row ≫= rl_limit);
         resetAt := default (now + windowSeconds * 1000) (row ≫= rl_reset_at) |}.

(** ** app/api/checkins/route.ts: POST *)

Definition POST_try (req : Request) : M Response :=
  (* Rate limit: 10 requests/minute per IP *)
  let! rl := enforceRateLimit req "POST /api/checkins" 10 60 in
  if negb (allowed rl) then
    let! now := Date_now in
    let retryAfterSec :=
      Math_max 1 (Math_ceil (inject_Z (resetAt rl - now) / 1000)%Q) in
    ret {| status := 429; retry_after := Some retryAfterSec;
           body := RateLimitBody "Rate limit exceeded" (used rl) (limit rl)
                     (resetAt rl) |}
  else
    match json req with
    | inl e => throw e
    | inr (Some (JString (String a s))) =>
        let cafeId := String a s in
        (* Verify cafe exists *)
        let! cafe := select_cafe_by_id cafeId in
        match cafe with
        | None => ret (json_response 404 (ErrorBody "Cafe not found"))
        | Some _ =>
            (* Insert check-in *)
            let! now := Date_now in
            let! checkIn := insert_checkin cafeId now in
            ret (json_response 200 (CheckInBody true checkIn))
        end
    | inr _ => ret (json_response 400 (ErrorBody "Missing or invalid cafeId"))
    end.

Definition POST (req : Request) : World -> Response * World :=
  try_catch (POST_try req) internal_error.

End Handlers.

(** ** Observations on runs *)

(** Every run of [m] appends to the trace only events that satisfy [P]. *)
Definition emits {A} (P : Event -> Prop) (m : M A) : Prop :=
  forall w, exists evs, trace (m w).2 = trace w ++ evs /\ Forall P evs.

Definition source_of (r : Response) : option string :=
  match body r with
  | NearbyBody source _ _ _ => Some source
  | _ => None
  end.

Definition cafes_of (r : Response) : list Cafe :=
  match body r with
  | NearbyBody _ _ _ cafes => cafes
  | _ => []
  end.

(** The row of [places_cache] that a refresh writes at time [t] for the
    identifiers [ids]. *)
Definition refreshed_row `{Runtime} (E : Environment) (req : Request)
    (lat lng : Q) (ids : list string) (t : Z) : CacheRow :=
  {| lat_center := roundCoord lat (GET_precision E);
     lng_center := roundCoord lng (GET_precision E);
     radius_m := GET_radiusM req;
     place_ids := Some ids;
     fetched_at := t;
     expires_at := new_Date (inject_Z t + GET_ttlSeconds E * 1000)%Q |}.

(** A raw record that normalization discards. *)
Definition lacks_id_or_coordinates (p : GooglePlace) : Prop :=
  gp_id p = None \/ gp_id p = Some EmptyString \/ gp_location p = None.

(** ** What the specification says, for comparison with the code *)

(** Round half away from zero at the [p]-th decimal digit, in the words of
    section 4.1, step 2 of the specification. *)
Definition spec_round_half_away_from_zero (n : Q) (p : Z) : Q :=
  let f := (10 ^ p)%Q in
  if Qle_bool 0 n
  then (inject_Z (Qfloor (n * f + (1 # 2))) / f)%Q
  else (- (inject_Z (Qfloor (- n * f + (1 # 2))) / f))%Q.

(** ** A runtime and worlds to run the handlers on *)

Module Sample.

Fixpoint fraction_digits (fuel : nat) (r d : Z) : string :=
  match fuel with
  | O => EmptyString
  | S fuel' =>
      if r =? 0 then EmptyString
      else String (ascii_of_N (48 + Z.to_N (r * 10 / d)))
                  (fraction_digits fuel' (r * 10 mod d) d)
  end.

(** Decimal notation of a rational with a terminating decimal expansion. *)
Definition decimal (q : Q) : string :=
  let d := Z.pos (Qden q) in
  let a := Z.abs (Qnum q) in
  (if Qnum q <? 0 then "-" else "") +:+ pretty (a / d) +:+
  (if a mod d =? 0 then "" else "." +:+ fraction_digits 400 (a mod d) d).

(** The [k] with [10^(k-1) <= x < 10^k], for [0 < x]. *)
Fixpoint leading_zeros (fuel : nat) (x : Q) : Z :=
  match fuel with
  | O => 0
  | S fuel' => if Qle_bool 1 x then 0 else 1 + leading_zeros fuel' (x * 10)
  end.

Definition decimal_exponent (x : Q) : Z :=
  if Qle_bool 1 x then Z.of_nat (String.length (pretty (Qfloor x)))
  else - leading_zeros 400 (x * 10).

(** The decimal of fewest digits that reads back as the double [x]
    ([0 < x]), the one nearest to [x] if there are two: with [n], [n+1],
    ... significant digits. *)
Fixpoint shortest (fuel : nat) (n : Z) (k : Z) (x : Q) : Q :=
  match fuel with
  | O => x
  | S fuel' =>
      let unit := (10 ^ (k - n))%Q in
      let below := (inject_Z (Qfloor (x / unit)) * unit)%Q in
      let above := (below + unit)%Q in
      let reads_back c := match fl c with Num y => Qeq_bool y x | _ => false end in
      match reads_back below, reads_back above with
      | true, true => if Qle_bool (x - below) (above - x) then below else above
      | true, false => below
      | false, true => above
      | false, false => shortest fuel' (n + 1) k x
      end
  end.

(** [Number::toString]: the shortest decimal that reads back, in decimal
    notation from [10^-6] up to [10^21] and in exponent notation
    elsewhere. *)
Definition decimal_string (q : Q) : string :=
  match fl q with
  | Num x =>
      if Qeq_bool x 0 then "0"
      else
        let c := shortest 17 1 (decimal_exponent (Qabs x)) (Qabs x) in
        let n := decimal_exponent c in
        (if Qle_bool 0 x then "" else "-") +:+
        (if (-6 <? n) && (n <=? 21) then decimal c
         else decimal (c / 10 ^ (n - 1))%Q +:+ "e"
              +:+ (if 0 <=? n - 1 then "+" else "-") +:+ pretty (Z.abs (n - 1)))
  | PosInfinity => "Infinity"
  | NegInfinity => "-Infinity"
  | NaN => "NaN"
  end.

(** The digest is a tagged copy of its input: the developments below
    never depend on which function it is. *)
Definition runtime : Runtime :=
  {| number_to_string := decimal_string;
     sha256_digest_base64url := fun s => "sha256:" +:+ s |}.

Definition no_error : Call -> option Error := fun _ => None.

(** The places API answers every search with [places]; every call takes
    [ms] milliseconds; [ttl] is PLACES_CACHE_TTL_SECONDS. *)
Definition environment (ttl : option Q) (precision : option Z)
    (errors : Call -> option Error) (ms : Z) (answer : FetchResult)
  : Environment :=
  {| PLACES_QUERY_LATLNG_PRECISION := precision;
     PLACES_CACHE_TTL_SECONDS := ttl;
     store_error := errors;
     latency := fun _ => ms;
     places_api := fun _ _ _ => answer;
     rate_limit_hit := spec_rate_limit_hit;
     db_new_id := fun n => "row-" +:+ pretty n |}.

Definition empty_world (now : Z) : World :=
  {| places_cache := ∅; cafes := ∅; checkins := []; rate_limits := ∅;
     next_id := 0; clock := now; trace := [] |}.

(** GET /api/cafes?lat=..&lng=..[&radius=..] *)
Definition nearby (lat lng : Q) (radius : option Q) : Request :=
  {| headers := ∅;
     searchParams :=
       let m : gmap string JS.number :=
         <["lat"%string := Finite lat]> (<["lng"%string := Finite lng]> ∅) in
       match radius with
       | Some r => <["radius"%string := Finite r]> m
       | None => m
       end;
     json := inr None |}.

(** POST /api/checkins with the given headers and body *)
Definition checkin (hs : gmap string string) (cafeId : string) : Request :=
  {| headers := hs; searchParams := ∅; json := inr (Some (JString cafeId)) |}.

Definition place (pid : string) (latitude longitude : Q)
    (priceLevel : option string) : GooglePlace :=
  {| gp_id := Some pid; gp_displayName := Some (Some ("Cafe " +:+ pid));
     gp_formattedAddress := None; gp_location := Some (latitude, longitude);
     gp_rating := Some 4.5%Q; gp_userRatingCount := Some 12%Q;
     gp_priceLevel := priceLevel; gp_types := Some ["cafe"%string] |}.

(** GET /api/cafes?lat=37.7749&lng=-122.4194 *)
Definition request : Request := nearby 37.7749%Q (-122.4194)%Q None.

Definition key : string := "nearby:37.775:-122.419:r=1500".

(** An answer of the places API: one usable record and one without an
    identifier. *)
Definition two_places : list GooglePlace :=
  [ place "p1" 37.7751%Q (-122.4190)%Q (Some "PRICE_LEVEL_VERY_EXPENSIVE"%string);
    place "" 37.7760%Q (-122.4200)%Q None ].

(** Default configuration; every call succeeds and takes 5 ms. *)
Definition E_places : Environment :=
  environment None None no_error 5 (FetchOk (Some two_places)).

(** The places API finds nothing. *)
Definition E_empty (ttl : option Q) : Environment :=
  environment ttl None no_error 5 (FetchOk (Some [])).

(** The store refuses the rate-limit procedure. *)
Definition E_rpc_down : Environment :=
  environment None None
    (fun c => if decide (c = RpcRateLimitHit)
              then Some {| message := Some "connection refused"%string |}
              else None)
    5 (FetchOk None).

Definition start : World := empty_world 1700000000000.

(** The world after a first query has filled the cache. *)
Definition warm : World := (@GET runtime E_places request start).2.

(** The same world one hour later: the entry has expired. *)
Definition stale : World := set_clock (clock warm + 3600000) warm.

(** A first query, under a TTL of one day, finds no place; the world one
    hour later. *)
Definition empty_cached : World :=
  let w := (@GET runtime (E_empty (Some 86400%Q)) request start).2 in
  set_clock (clock w + 3600000) w.

End Sample.

(** ** app/page.tsx: what the page computes from a response *)

(** [ToIntegerOrInfinity] on a finite number: truncation towards zero. *)
Definition ToIntegerOrInfinity (x : Q) : Z := Z.quot (Qnum x) (Z.pos (Qden x)).

(** [s.repeat(count)], for a count that is not negative. *)
Definition String_repeat (s : string) (count : Q) : string :=
  Nat.iter (Z.to_nat (ToIntegerOrInfinity count)) (String.append s) EmptyString.

Definition priceLabel (level : option Q) : string :=
  match level with
  | None => "Price ?"
  | Some level => String_repeat "$" (Math_max 1 (Math_min 4 (level + 1)%Q))
  end.

(** A label of [k] dollar signs. *)
Definition dollars (k : nat) : string := Nat.iter k (String "$"%char) EmptyString.

(** The comparator of the rating sort: by rating, descending, then by the
    number of ratings; a missing value counts as -1. *)
Definition by_rating (a b : Cafe) : Q :=
  let ar := default (-1)%Q (google_rating (cafe_fields a)) in
  let br := default (-1)%Q (google_rating (cafe_fields b)) in
  if negb (Qeq_bool br ar) then (br - ar)%Q
  else
    let an := default (-1)%Q (user_ratings_total (cafe_fields a)) in
    let bn := default (-1)%Q (user_ratings_total (cafe_fields b)) in
    (bn - an)%Q.

(** [Array.prototype.sort(compare)]: the sort is stable, and [compare a b]
    is positive when [b] has to come before [a]. Insertion from the right
    keeps equal elements in their order. *)
Fixpoint insert_by {A} (compare : A -> A -> Q) (x : A) (l : list A) : list A :=
  match l with
  | [] => [x]
  | y :: l' =>
      if Qle_bool (compare x y) 0 then x :: y :: l'
      else y :: insert_by compare x l'
  end.

Definition Array_sort {A} (compare : A -> A -> Q) (l : list A) : list A :=
  foldr (insert_by compare) [] l.

(** The list the page shows when [sort] is "rating": [data?.cafes ?? []]
    sorted by [by_rating]. *)
Definition cafes_by_rating (data : option Response) : list Cafe :=
  Array_sort by_rating (default [] (cafes_of <$> data)).

(** ** More observations on runs *)

(** No run of [m] changes the component [f] of the world. *)
Definition preserves {A X} (f : World -> X) (m : M A) : Prop :=
  forall w, f (m w).2 = f w.

(** The tables of the resolver. *)
Definition resolver_tables (w : World)
  : gmap string CacheRow * gmap string CafeRow :=
  (places_cache w, cafes w).

(** The upstream call, if [e] is one, searches around [(lat, lng)] with a
    radius within the bounds. *)
Definition upstream_call_ok (lat lng : Q) (e : Event) : Prop :=
  match e with
  | EvFetchPlaces a b r => a = lat /\ b = lng /\ (200 <= r)%Q /\ (r <= 5000)%Q
  | _ => True
  end.

(** A raw record that normalization keeps, with its identifier. *)
Definition kept_as (pid : string) (p : GooglePlace) : Prop :=
  gp_id p = Some pid /\ pid <> EmptyString /\ is_Some (gp_location p).

(** The rating the sort compares. *)
Definition rating_key (c : Cafe) : Q :=
  default (-1)%Q (google_rating (cafe_fields c)).

Definition count_key (c : Cafe) : Q :=
  default (-1)%Q (user_ratings_total (cafe_fields c)).

(** [a] may stand before [b] in the list sorted by rating. *)
Definition rating_order (a b : Cafe) : Prop :=
  (rating_key b < rating_key a)%Q \/
  ((rating_key a == rating_key b)%Q /\ (count_key b <= count_key a)%Q).

(** ** More worlds and requests *)

Module Fixtures.

(** The store refuses the call [c]. *)
Definition E_failing (c : Call) (answer : FetchResult) : Environment :=
  Sample.environment None None
    (fun c' => if decide (c' = c)
               then Some {| message := Some "store unavailable"%string |}
               else None)
    5 answer.

(** The rate-limit procedure answers with [data]. *)
Definition E_rpc (data : RpcData) : Environment :=
  {| PLACES_QUERY_LATLNG_PRECISION := None;
     PLACES_CACHE_TTL_SECONDS := None;
     store_error := Sample.no_error;
     latency := fun _ => 5;
     places_api := fun _ _ _ => FetchOk None;
     rate_limit_hit := fun _ _ _ _ _ tbl => (data, tbl);
     db_new_id := fun n => "row-" +:+ pretty n |}.

Definition denied : RpcData :=
  DataObject {| rl_allowed := Some false; rl_used := Some 11;
                rl_limit := Some 10; rl_reset_at := Some 1700000030005 |}.

(** GET /api/cafes?lng=-122.4194 *)
Definition no_lat : Request :=
  {| headers := ∅;
     searchParams := {[ "lng"%string := Finite (-122.4194)%Q ]};
     json := inr None |}.


Definition cafe (i pid : string) (rating count : option Q) : Cafe :=
  {| cafe_id := i; cafe_place_id := pid;
     cafe_fields := {| name := pid; address := None; lat := 0; lng := 0;
                       google_rating := rating; user_ratings_total := count;
                       price_level := None; types := None |} |}.

End Fixtures.

(** * Properties *)

(** ** Runs of the handlers on small inputs *)

Example decimal_string_samples :
  Sample.decimal_string (-0.12)%Q = "-0.12"%string /\
  Sample.decimal_string 1500%Q = "1500"%string /\
  Sample.decimal_string (37775 # 1000)%Q = "37.775"%string.
Proof. vm_compute. auto. Qed.

Example decimal_string_shortest :
  Sample.decimal_string (1 # 3)%Q = "0.3333333333333333"%string /\
  Sample.decimal_string 4503599627370.0225%Q = "4503599627370.022"%string /\
  Sample.decimal_string 0.000001%Q = "0.000001"%string /\
  Sample.decimal_string 0.0000001%Q = "1e-7"%string /\
  Sample.decimal_string 1.5e21%Q = "1.5e+21"%string.
Proof. vm_compute. repeat split. Qed.

Example cacheKey_sample :
  @cacheKey Sample.runtime 37.7749%Q (-122.4194)%Q 1500%Q 3%Q
  = "nearby:37.775:-122.419:r=1500"%string.
Proof. vm_compute. reflexivity. Qed.

Example trim_sample :
  trim (split_comma_0 " 203.0.113.7 , 10.0.0.1") = "203.0.113.7"%string.
Proof. reflexivity. Qed.

(** A no-break space (code unit 160) and a tab are trimmed; the code unit
    133 is not white space. *)
Example trim_no_break_space :
  trim (String (ascii_of_N 160) ("1.2.3.4" +:+ String (ascii_of_N 9) EmptyString))
  = "1.2.3.4"%string /\
  trim (String (ascii_of_N 133) "1.2.3.4")
  = String (ascii_of_N 133) "1.2.3.4".
Proof. split; reflexivity. Qed.

(** Binary64 rounding: the double of 0.1; ties go to the even
    significand; the largest double and the overflow threshold; the
    smallest subnormal and the underflow to zero. *)
Example fl_samples :
  fl 0.1 = Num (3602879701896397 # 36028797018963968) /\
  fl (inject_Z (2 ^ 53 + 1)) = Num (inject_Z (2 ^ 53)) /\
  fl (inject_Z (2 ^ 53 + 3)) = Num (inject_Z (2 ^ 53 + 4)) /\
  fl (inject_Z (2 ^ 1024 - 2 ^ 970 - 1)) = Num (inject_Z (2 ^ 1024 - 2 ^ 971)) /\
  fl (inject_Z (2 ^ 1024 - 2 ^ 970)) = PosInfinity /\
  fl (- inject_Z (2 ^ 1024)) = NegInfinity /\
  fl (3 # Z.to_pos (2 ^ 1076)) = Num (1 # Z.to_pos (2 ^ 1074)) /\
  fl (1 # Z.to_pos (2 ^ 1075)) = Num 0.
Proof.
  split; [vm_compute; reflexivity |].
  split; [vm_compute; reflexivity |].
  split; [vm_compute; reflexivity |].
  split; [vm_compute; reflexivity |].
  split; [vm_compute; reflexivity |].
  split; [vm_compute; reflexivity |].
  split; vm_compute; reflexivity.
Qed.

Example includes_samples :
  includes "PRICE_LEVEL_MODERATE" "MODERATE" = true /\
  includes "PRICE_LEVEL_INEXPENSIVE" "FREE" = false /\
  includes "" "FREE" = false.
Proof. vm_compute. auto. Qed.

(** ** Radius and precision clamping *)

Lemma clamp_spec (n lo hi : Q) :
  (lo <= hi)%Q ->
  (((n <= lo)%Q \/ (lo == hi)%Q) /\ clamp n lo hi = lo) \/
  ((hi <= n)%Q /\ (lo < hi)%Q /\ clamp n lo hi = hi) \/
  ((lo < n)%Q /\ (n < hi)%Q /\ clamp n lo hi = n).
Proof.
  intros Hle. unfold clamp, Math_max, Math_min, Qmax, Qmin,
    GenericMinMax.gmax, GenericMinMax.gmin.
  destruct (hi ?= n)%Q eqn:H1;
    [apply Qeq_alt in H1 | apply Qlt_alt in H1 | apply Qgt_alt in H1].
  1,2: destruct (lo ?= hi)%Q eqn:H2;
    [apply Qeq_alt in H2 | apply Qlt_alt in H2 | apply Qgt_alt in H2].
  7: destruct (lo ?= n)%Q eqn:H2;
    [apply Qeq_alt in H2 | apply Qlt_alt in H2 | apply Qgt_alt in H2].
  all: try lra.
  all: first
    [ left; split; [first [left; lra | right; lra] | reflexivity]
    | right; left; repeat split; lra
    | right; right; repeat split; lra ].
Qed.

Lemma clamp_bounds (n lo hi : Q) :
  (lo <= hi)%Q -> (lo <= clamp n lo hi)%Q /\ (clamp n lo hi <= hi)%Q.
Proof.
  intros Hle.
  destruct (clamp_spec n lo hi Hle) as [[? ->]|[(? & ? & ->)|(? & ? & ->)]]; lra.
Qed.

Lemma clamp_idempotent (n lo hi : Q) :
  (lo <= hi)%Q -> clamp (clamp n lo hi) lo hi = clamp n lo hi.
Proof.
  intros Hle.
  destruct (clamp_spec n lo hi Hle) as [[H1 E1]|[(H1 & H2 & E1)|(H1 & H2 & E1)]];
    rewrite E1.
  - destruct (clamp_spec lo lo hi Hle) as [[_ F]|[(K & ? & F)|(K & ? & F)]];
      [exact F | lra | lra].
  - destruct (clamp_spec hi lo hi Hle) as [[[K|K] F]|[(_ & _ & F)|(? & K & F)]];
      [lra | lra | exact F | lra].
  - exact E1.
Qed.

(** C6. Clamping the radius to the default bounds [200, 5000] is idempotent
    and saturating: [clamp (clamp x) = clamp x] for every [x],
    [clamp 100 = 200] and [clamp 9000 = 5000], a result in every case; and
    when the request carries no usable radius, line 129 of the handler
    ([clamp(radius ?? 1500, 200, 5000)]) yields the default 1500. *)
Theorem clamp_radius_idempotent_saturating :
  (forall x : Q, clamp (clamp x 200 5000) 200 5000 = clamp x 200 5000) /\
  (forall x : Q, (200 <= clamp x 200 5000)%Q /\ (clamp x 200 5000 <= 5000)%Q) /\
  clamp 100 200 5000 = 200%Q /\
  clamp 9000 200 5000 = 5000%Q /\
  clamp (default 1500%Q (toNumber None)) 200 5000 = 1500%Q /\
  clamp (default 1500%Q (toNumber (Some NotFinite))) 200 5000 = 1500%Q /\
  (forall lat lng : Q, GET_radiusM (Sample.nearby lat lng None) = 1500%Q).
Proof.
  split; [| split].
  - intros x. apply clamp_idempotent. lra.
  - intros x. apply clamp_bounds. lra.
  - repeat split; reflexivity.
Qed.

(** ** Coordinate rounding *)

Lemma precision_values (env : option Z) :
  let p := clamp (inject_Z (default 3 env)) 2 5 in
  p = 2%Q \/ p = 3%Q \/ p = 4%Q \/ p = 5%Q.
Proof.
  intros p. subst p.
  destruct (clamp_spec (inject_Z (default 3 env)) 2 5 ltac:(lra))
    as [[_ ->]|[(_ & _ & ->)|(H1 & H2 & ->)]]; auto.
  change 2%Q with (inject_Z 2) in H1. change 5%Q with (inject_Z 5) in H2.
  rewrite <- Zlt_Qlt in H1, H2.
  assert (default 3 env = 3 \/ default 3 env = 4) as [-> | ->] by lia; auto.
Qed.

Lemma Math_round_bounds (x : Q) :
  (x - (1 # 2) < Math_round x)%Q /\ (Math_round x <= x + (1 # 2))%Q.
Proof.
  unfold Math_round.
  pose proof (Qfloor_le (x + (1 # 2))) as Hlo.
  pose proof (Qlt_floor (x + (1 # 2))) as Hhi.
  rewrite inject_Z_plus in Hhi. change (inject_Z 1) with 1%Q in Hhi.
  split; lra.
Qed.

Lemma Math_round_half (k : Z) (x : Q) :
  (x == inject_Z k - (1 # 2))%Q -> Math_round x = inject_Z k.
Proof.
  intros Hx. unfold Math_round. f_equal.
  rewrite <- (Qfloor_Z k). apply Qfloor_comp. rewrite Hx. ring.
Qed.

Lemma precision_powers (env : option Z) :
  let precision := clamp (inject_Z (default 3 env)) 2 5 in
  exists p : Z, 2 <= p <= 5 /\ precision = inject_Z p /\
                Math_pow 10 precision = inject_Z (10 ^ p).
Proof.
  intros precision.
  destruct (precision_values env) as [Hp|[Hp|[Hp|Hp]]];
    fold precision in Hp; rewrite Hp;
    [exists 2 | exists 3 | exists 4 | exists 5]; repeat split; lia.
Qed.

(** C4 (as the code has it). For every coordinate and every integer
    setting of the precision, the precision used is an integer [p] between
    2 and 5 (3 when the variable is unset), and latitude and longitude are
    each rounded by [roundCoord], which computes
    [Math.round(x * 10^p) / 10^p] in binary64: with [y] the product rounded
    to binary64, the result is the quotient [k / 10^p] rounded to binary64,
    where [k] is the integer nearest to [y]; a product exactly half-way
    between two integers goes to the larger one (round half towards
    +infinity, as [Math.round] does), whatever its sign. A product that
    overflows gives that infinity. *)
Theorem roundCoord_rounds_half_up `{Runtime} (n : Q) (env : option Z) :
  let precision := clamp (inject_Z (default 3 env)) 2 5 in
  let f := Math_pow 10 precision in
  (exists p : Z, 2 <= p <= 5 /\ precision = inject_Z p /\ f = inject_Z (10 ^ p)) /\
  clamp (inject_Z (default 3 None)) 2 5 = 3%Q /\
  (forall lat lng radiusM : Q,
     cacheKey lat lng radiusM precision =
     "nearby:" +:+ String_of (roundCoord lat precision) +:+ ":"
       +:+ String_of (roundCoord lng precision) +:+ ":r="
       +:+ number_to_string radiusM) /\
  (forall x y : Q,
     fl n = Num x -> fl (x * f) = Num y ->
     exists k : Z,
       roundCoord n precision = fl (inject_Z k / f) /\
       (y - (1 # 2) < inject_Z k)%Q /\
       (inject_Z k <= y + (1 # 2))%Q /\
       (forall j : Z, (y == inject_Z j - (1 # 2))%Q -> k = j)) /\
  (forall x : Q,
     fl n = Num x ->
     (fl (x * f) = PosInfinity -> roundCoord n precision = PosInfinity) /\
     (fl (x * f) = NegInfinity -> roundCoord n precision = NegInfinity)).
Proof.
  intros precision f.
  split; [exact (precision_powers env) |].
  split; [reflexivity |].
  split; [reflexivity |].
  split.
  - intros x y Hx Hy.
    exists (Qfloor (y + (1 # 2))).
    destruct (Math_round_bounds y) as [Hlo Hhi]. unfold Math_round in Hlo, Hhi.
    repeat split; [| exact Hlo | exact Hhi |].
    + unfold roundCoord. fold f. rewrite Hx, Hy. reflexivity.
    + intros j Hj. pose proof (Math_round_half j y Hj) as Hk.
      unfold Math_round in Hk. injection Hk as Hk. exact Hk.
  - intros x Hx.
    split; intros Hy; unfold roundCoord; fold f; rewrite Hx, Hy; reflexivity.
Qed.

Lemma roundCoord_rounds_half_up_witness :
  exists k : Z,
    roundCoord (-0.125) (clamp (inject_Z (default 3%Z (Some 2%Z))) 2 5)
    = fl (inject_Z k / Math_pow 10 (clamp (inject_Z (default 3%Z (Some 2%Z))) 2 5)) /\
    (-(25 # 2) - (1 # 2) < inject_Z k)%Q /\
    (inject_Z k <= -(25 # 2) + (1 # 2))%Q /\
    (forall j : Z, (-(25 # 2) == inject_Z j - (1 # 2))%Q -> k = j).
Proof.
  destruct (@roundCoord_rounds_half_up Sample.runtime (-0.125) (Some 2))
    as (_ & _ & _ & Hround & _).
  apply (Hround (-(1 # 8))%Q (-(25 # 2))%Q); vm_compute; reflexivity.
Defined.

(** C4, as the claim words it, fails: at precision 2 the coordinate -0.125
    (a double, as is its product -12.5 with 100) lies exactly half-way
    between -0.13 and -0.12; rounding half away from zero gives -0.13, the
    code gives the double of -0.12, which is nearer to zero than the
    coordinate. *)
Lemma roundCoord_not_half_away_from_zero :
  let precision := clamp (inject_Z (default 3%Z (Some 2%Z))) 2 5 in
  fl (-0.125) = Num (-(1 # 8)) /\
  fl (-(1 # 8) * Math_pow 10 precision) = Num (-(25 # 2)) /\
  roundCoord (-0.125) precision = fl (-0.12) /\
  @String_of Sample.runtime (roundCoord (-0.125) precision) = "-0.12"%string /\
  (spec_round_half_away_from_zero (-0.125) 2 == -0.13)%Q /\
  roundCoord (-0.125) precision <> fl (spec_round_half_away_from_zero (-0.125) 2) /\
  (exists r : Q, roundCoord (-0.125) precision = Num r /\
                 (Qabs r < Qabs (-0.125))%Q).
Proof.
  intros precision.
  split; [vm_compute; reflexivity |].
  split; [vm_compute; reflexivity |].
  split; [vm_compute; reflexivity |].
  split; [vm_compute; reflexivity |].
  split; [vm_compute; reflexivity |].
  split; [vm_compute; congruence |].
  eexists. split; vm_compute; reflexivity.
Qed.

(** The rounding of the product and of the quotient shows on decimal
    inputs: the double of 37.7735 lies below the half-way point, its
    product with 1000 rounds to 37773.5 and the result is 37.774; the
    double of -1.0235 lies below its half-way point and moves away from
    zero, to -1.024. *)
Example roundCoord_binary64_samples :
  fl 0.1 = Num (3602879701896397 # 36028797018963968) /\
  (exists x : Q, fl 37.7735 = Num x /\ (x < 37.7735)%Q /\
                 fl (x * 1000) = Num (75547 # 2)) /\
  roundCoord 37.7735 3 = fl 37.774 /\
  roundCoord (-1.0235) 3 = fl (-1.024) /\
  roundCoord 37.7749 3 = fl 37.775 /\
  @String_of Sample.runtime (roundCoord 37.7735 3) = "37.774"%string.
Proof.
  split; [vm_compute; reflexivity |].
  split; [eexists; split; [vm_compute; reflexivity |];
          split; vm_compute; reflexivity |].
  split; [vm_compute; reflexivity |].
  split; [vm_compute; reflexivity |].
  split; vm_compute; reflexivity.
Qed.

(** ** Price tiers *)

Lemma includes_unfold (s t : string) :
  includes s t =
  startsWith s t ||
  match s with EmptyString => false | String _ s' => includes s' t end.
Proof. destruct s; reflexivity. Qed.

Lemma startsWith_app_includes (t1 t2 s : string) :
  startsWith s (t1 +:+ t2) = true -> includes s t2 = true.
Proof.
  revert s. induction t1 as [|b t1 IH]; intros s H.
  - change (startsWith s t2 = true) in H.
    rewrite includes_unfold, H. reflexivity.
  - destruct s as [|a s]; [discriminate |].
    change (Ascii.eqb a b && startsWith s (t1 +:+ t2) = true) in H.
    apply andb_prop in H as [_ H]. apply IH in H.
    rewrite includes_unfold, H. apply orb_true_r.
Qed.

Lemma includes_suffix (t1 t2 s : string) :
  includes s (t1 +:+ t2) = true -> includes s t2 = true.
Proof.
  induction s as [|a s IH]; intros H; rewrite includes_unfold in H;
    apply orb_prop in H as [H|H].
  - exact (startsWith_app_includes t1 t2 _ H).
  - discriminate.
  - exact (startsWith_app_includes t1 t2 _ H).
  - apply IH in H. rewrite includes_unfold, H. apply orb_true_r.
Qed.

Lemma priceLevelInt_never_4 (priceLevel : option string) :
  priceLevelInt priceLevel <> Some 4.
Proof.
  destruct priceLevel as [s|]; [| discriminate]. unfold priceLevelInt.
  destruct (includes s "FREE"); [discriminate |].
  destruct (includes s "INEXPENSIVE"); [discriminate |].
  destruct (includes s "MODERATE"); [discriminate |].
  destruct (includes s "EXPENSIVE") eqn:He; [discriminate |].
  destruct (includes s "VERY_EXPENSIVE") eqn:Hv; [| discriminate].
  apply (includes_suffix "VERY_" "EXPENSIVE") in Hv. congruence.
Qed.

(** C3 (the code at the failing input). The chain of [includes] tests maps
    the tiers FREE, INEXPENSIVE, MODERATE and EXPENSIVE to 0, 1, 2 and 3 and
    a missing or unspecified tier to [null]; but VERY_EXPENSIVE contains
    EXPENSIVE, which is tested first: it is mapped to 3, and no tier at all
    is ever mapped to 4. *)
Theorem priceLevelInt_very_expensive_is_3 :
  priceLevelInt (Some "PRICE_LEVEL_FREE"%string) = Some 0 /\
  priceLevelInt (Some "PRICE_LEVEL_INEXPENSIVE"%string) = Some 1 /\
  priceLevelInt (Some "PRICE_LEVEL_MODERATE"%string) = Some 2 /\
  priceLevelInt (Some "PRICE_LEVEL_EXPENSIVE"%string) = Some 3 /\
  priceLevelInt (Some "PRICE_LEVEL_VERY_EXPENSIVE"%string) = Some 3 /\
  priceLevelInt (Some "VERY_EXPENSIVE"%string) = Some 3 /\
  priceLevelInt (Some "PRICE_LEVEL_UNSPECIFIED"%string) = None /\
  priceLevelInt None = None /\
  (forall priceLevel, priceLevelInt priceLevel <> Some 4).
Proof.
  repeat split; try reflexivity. apply priceLevelInt_never_4.
Qed.

(** ** Runs of the monad and of the store calls *)

Lemma bind_returned {A B} (m : M A) (k : A -> M B) (w w' : World) (a : A) :
  m w = (Returned a, w') -> bind m k w = k a w'.
Proof. intros H. unfold bind. rewrite H. reflexivity. Qed.

Lemma bind_thrown {A B} (m : M A) (k : A -> M B) (w w' : World) (e : Error) :
  m w = (Thrown e, w') -> bind m k w = (Thrown e, w').
Proof. intros H. unfold bind. rewrite H. reflexivity. Qed.

Lemma store_call_ok {A} (E : Environment) (c : Call) (ev : Event)
    (data : M A) (w : World) :
  store_error E c = None ->
  store_call E c ev data w = data (await E c ev w).2.
Proof. intros H. unfold store_call, bind, or_throw. rewrite H. reflexivity. Qed.

Lemma store_call_error {A} (E : Environment) (c : Call) (ev : Event)
    (data : M A) (w : World) (e : Error) :
  store_error E c = Some e ->
  store_call E c ev data w = (Thrown e, (await E c ev w).2).
Proof. intros H. unfold store_call, bind, or_throw. rewrite H. reflexivity. Qed.

Lemma upstream_calls_app (tr1 tr2 : list Event) :
  upstream_calls (tr1 ++ tr2) = (upstream_calls tr1 + upstream_calls tr2)%nat.
Proof. unfold upstream_calls. rewrite List.filter_app, length_app. reflexivity. Qed.

Ltac world_simpl :=
  cbn [clock trace places_cache cafes checkins rate_limits next_id
       await set_clock set_trace set_places_cache set_cafes set_checkins
       set_rate_limits ret throw Date_now fst snd].

Ltac count_upstream :=
  world_simpl; rewrite ?upstream_calls_app;
  change (upstream_calls []) with 0%nat;
  repeat match goal with
         | |- context [upstream_calls [?e]] =>
             let n := eval cbv in (upstream_calls [e]) in
             change (upstream_calls [e]) with n
         end;
  lia.

Section StoreRuns.

Context (E : Environment) (w : World).

Lemma select_places_cache_ok (key : string) :
  store_error E SelectPlacesCache = None ->
  select_places_cache E key w =
  (Returned (places_cache w !! key),
   (await E SelectPlacesCache (EvSelectPlacesCache key) w).2).
Proof. intros He. unfold select_places_cache. rewrite store_call_ok by exact He. reflexivity. Qed.

Lemma select_places_cache_error (key : string) (e : Error) :
  store_error E SelectPlacesCache = Some e ->
  select_places_cache E key w =
  (Thrown e, (await E SelectPlacesCache (EvSelectPlacesCache key) w).2).
Proof. intros He. apply store_call_error. exact He. Qed.

Lemma select_cafes_in_ok (ids : list string) :
  store_error E SelectCafesIn = None ->
  select_cafes_in E ids w =
  (Returned (cafes_in ids (cafes w)),
   (await E SelectCafesIn (EvSelectCafesIn ids) w).2).
Proof. intros He. unfold select_cafes_in. rewrite store_call_ok by exact He. reflexivity. Qed.

Lemma select_cafes_in_error (ids : list string) (e : Error) :
  store_error E SelectCafesIn = Some e ->
  select_cafes_in E ids w =
  (Thrown e, (await E SelectCafesIn (EvSelectCafesIn ids) w).2).
Proof. intros He. apply store_call_error. exact He. Qed.

Lemma upsert_cafes_ok (rows : list CafeUpsert) :
  store_error E UpsertCafes = None ->
  upsert_cafes E rows w =
  (Returned tt,
   let r := foldl (upsert_cafe E) (cafes w, next_id w) rows in
   set_cafes r.1 r.2 (await E UpsertCafes (EvUpsertCafes (place_id <$> rows)) w).2).
Proof. intros He. unfold upsert_cafes. rewrite store_call_ok by exact He. reflexivity. Qed.

Lemma upsert_cafes_error (rows : list CafeUpsert) (e : Error) :
  store_error E UpsertCafes = Some e ->
  upsert_cafes E rows w =
  (Thrown e, (await E UpsertCafes (EvUpsertCafes (place_id <$> rows)) w).2).
Proof. intros He. apply store_call_error. exact He. Qed.

Lemma upsert_places_cache_ok (key : string) (row : CacheRow) :
  store_error E UpsertPlacesCache = None ->
  upsert_places_cache E key row w =
  (Returned tt,
   set_places_cache (<[key := row]> (places_cache w))
     (await E UpsertPlacesCache (EvUpsertPlacesCache key row) w).2).
Proof. intros He. unfold upsert_places_cache. rewrite store_call_ok by exact He. reflexivity. Qed.

Lemma upsert_places_cache_error (key : string) (row : CacheRow) (e : Error) :
  store_error E UpsertPlacesCache = Some e ->
  upsert_places_cache E key row w =
  (Thrown e, (await E UpsertPlacesCache (EvUpsertPlacesCache key row) w).2).
Proof. intros He. apply store_call_error. exact He. Qed.

End StoreRuns.

Lemma usable_true (cacheRow : option CacheRow) (now : Z) :
  usable cacheRow now = true <->
  exists row ids, cacheRow = Some row /\ now < expires_at row /\
                  place_ids row = Some ids /\ ids <> [].
Proof.
  unfold usable. split.
  - destruct cacheRow as [row|]; [| discriminate].
    intros H. apply andb_prop in H as [H1 H2].
    destruct (place_ids row) as [ids|] eqn:Hids; [| discriminate].
    exists row, ids. split; [reflexivity |]. split; [lia |].
    split; [exact Hids |]. intros ->. discriminate.
  - intros (row & ids & -> & Hlt & -> & Hne).
    apply andb_true_intro. split; [lia |].
    destruct ids; [congruence | reflexivity].
Qed.

Lemma usable_false (cacheRow : option CacheRow) (now : Z) :
  usable cacheRow now = false <->
  cacheRow = None \/
  exists row, cacheRow = Some row /\
              (expires_at row <= now \/ default [] (place_ids row) = []).
Proof.
  unfold usable. split.
  - destruct cacheRow as [row|]; [| auto].
    intros H. right. exists row. split; [reflexivity |].
    apply andb_false_iff in H as [H|H]; [left; lia |].
    right. destruct (place_ids row) as [[|]|]; try reflexivity. discriminate.
  - intros [-> | (row & -> & [H|H])]; [reflexivity | |].
    + apply andb_false_iff. left. lia.
    + apply andb_false_iff. right.
      destruct (place_ids row) as [[|]|]; try reflexivity. discriminate.
Qed.

Lemma elem_of_cafes_in (ids : list string) (tbl : gmap string CafeRow) (c : Cafe) :
  c ∈ cafes_in ids tbl <->
  cafe_place_id c ∈ ids /\
  exists r, tbl !! cafe_place_id c = Some r /\ cafe_id c = id r /\
            cafe_fields c = row_fields r.
Proof.
  unfold cafes_in. rewrite list_elem_of_fmap. split.
  - intros ([k r] & -> & Hin). apply list_elem_of_filter in Hin as [Hk Hin].
    apply elem_of_map_to_list in Hin. simpl in *. eauto 6.
  - intros (Hk & r & Hr & Hid & Hf).
    exists (cafe_place_id c, r). split.
    + destruct c; simpl in *; subst; reflexivity.
    + apply list_elem_of_filter. split; [exact Hk |].
      apply elem_of_map_to_list. exact Hr.
Qed.

(** ** The cache-hit path *)

(** C1. For every stored cache entry whose expiry is strictly after the
    current time (the time read once the lookup has answered) and whose
    place-identifier set is not empty, the resolver makes no call to the
    upstream provider, and, the two reads of the store answering, returns
    the places with these identifiers tagged [source = "cache"]. *)
Theorem GET_fresh_entry_served_from_cache
    `{Runtime} (E : Environment) (req : Request) (w : World)
    (lat lng : Q) (row : CacheRow) (ids : list string) :
  toNumber (searchParams req !! "lat"%string) = Some lat ->
  toNumber (searchParams req !! "lng"%string) = Some lng ->
  places_cache w !! GET_key E req lat lng = Some row ->
  clock w + latency E SelectPlacesCache < expires_at row ->
  place_ids row = Some ids ->
  ids <> [] ->
  upstream_calls (trace (GET E req w).2) = upstream_calls (trace w) /\
  (store_error E SelectPlacesCache = None ->
   store_error E SelectCafesIn = None ->
   (GET E req w).1 =
     json_response 200
       (NearbyBody "cache" (GET_key E req lat lng) (GET_radiusM req)
                   (cafes_in ids (cafes w))) /\
   forall c, c ∈ cafes_of (GET E req w).1 <->
             cafe_place_id c ∈ ids /\
             exists r, cafes w !! cafe_place_id c = Some r /\
                       cafe_id c = id r /\ cafe_fields c = row_fields r).
Proof.
  intros Hlat Hlng Hrow Hfresh Hids Hne.
  assert (Hus : usable (Some row) (clock w + latency E SelectPlacesCache) = true)
    by (apply usable_true; eauto 6).
  unfold GET, try_catch, GET_try. rewrite Hlat, Hlng. cbv zeta.
  destruct (store_error E SelectPlacesCache) as [e|] eqn:He1.
  - erewrite bind_thrown by (apply select_places_cache_error; exact He1).
    split; [count_upstream | discriminate].
  - erewrite bind_returned by (apply select_places_cache_ok; exact He1).
    erewrite bind_returned by reflexivity.
    rewrite Hrow. world_simpl. rewrite Hus. cbn [mbind option_bind default].
    rewrite Hids. cbn [default from_option Datatypes.id].
    destruct (store_error E SelectCafesIn) as [e|] eqn:He2.
    + erewrite bind_thrown by (apply select_cafes_in_error; exact He2).
      split; [count_upstream | discriminate].
    + erewrite bind_returned by (apply select_cafes_in_ok; exact He2).
      split; [count_upstream |].
      intros _ _. world_simpl. split; [reflexivity |].
      intros c. apply elem_of_cafes_in.
Qed.

(** ** The cache-miss path *)

Lemma searchNearbyPlaces_ok `{Runtime} (E : Environment) (lat lng radiusM : Q)
    (places : option (list GooglePlace)) (w : World) :
  places_api E lat lng radiusM = FetchOk places ->
  searchNearbyPlaces E lat lng radiusM w =
  (Returned (default [] places),
   (await E FetchPlaces (EvFetchPlaces lat lng radiusM) w).2).
Proof. intros Hp. unfold searchNearbyPlaces, bind. simpl. rewrite Hp. reflexivity. Qed.

Lemma searchNearbyPlaces_run `{Runtime} (E : Environment) (lat lng radiusM : Q)
    (w : World) :
  exists o, searchNearbyPlaces E lat lng radiusM w =
            (o, (await E FetchPlaces (EvFetchPlaces lat lng radiusM) w).2).
Proof.
  unfold searchNearbyPlaces, bind. simpl.
  destruct (places_api E lat lng radiusM); eexists; reflexivity.
Qed.

Ltac run_store_call E c ok err :=
  let e := fresh "e" in
  let He := fresh "He" in
  destruct (store_error E c) as [e|] eqn:He;
  [ erewrite bind_thrown by (apply err; exact He)
  | erewrite bind_returned by (apply ok; exact He) ].

(** Whenever the lookup answers with no usable entry, exactly one call to
    the upstream provider is made, whatever happens afterwards. *)
Lemma GET_unusable_calls_upstream
    `{Runtime} (E : Environment) (req : Request) (w : World) (lat lng : Q) :
  toNumber (searchParams req !! "lat"%string) = Some lat ->
  toNumber (searchParams req !! "lng"%string) = Some lng ->
  store_error E SelectPlacesCache = None ->
  usable (places_cache w !! GET_key E req lat lng)
         (clock w + latency E SelectPlacesCache) = false ->
  upstream_calls (trace (GET E req w).2) = S (upstream_calls (trace w)).
Proof.
  intros Hlat Hlng He1 Hus.
  unfold GET, try_catch, GET_try. rewrite Hlat, Hlng. cbv zeta.
  erewrite bind_returned by (apply select_places_cache_ok; exact He1).
  erewrite bind_returned by reflexivity.
  world_simpl. rewrite Hus.
  destruct (searchNearbyPlaces_run E lat lng (GET_radiusM req)
              (await E SelectPlacesCache
                 (EvSelectPlacesCache (GET_key E req lat lng)) w).2)
    as [[places|e] Hrun].
  2: { erewrite bind_thrown by exact Hrun. count_upstream. }
  erewrite bind_returned by exact Hrun.
  erewrite bind_returned by reflexivity.
  world_simpl.
  set (t := clock w + latency E SelectPlacesCache + latency E FetchPlaces).
  destruct (length (omap (normalize t) places) =? 0)%nat.
  - erewrite bind_returned by reflexivity.
    erewrite bind_returned by reflexivity.
    run_store_call E UpsertPlacesCache upsert_places_cache_ok upsert_places_cache_error;
      [count_upstream |].
    run_store_call E SelectCafesIn select_cafes_in_ok select_cafes_in_error;
      count_upstream.
  - run_store_call E UpsertCafes upsert_cafes_ok upsert_cafes_error;
      [count_upstream |].
    erewrite bind_returned by reflexivity.
    run_store_call E UpsertPlacesCache upsert_places_cache_ok upsert_places_cache_error;
      [count_upstream |].
    run_store_call E SelectCafesIn select_cafes_in_ok select_cafes_in_error;
      count_upstream.
Qed.

Lemma new_Date_lower (m : Z) (x : Q) :
  (inject_Z m <= x)%Q -> m <= new_Date x.
Proof.
  unfold new_Date, Qle, inject_Z. cbn [Qnum Qden]. intros Hle.
  apply Z.quot_le_lower_bound; lia.
Qed.



Lemma GET_ttlSeconds_bounds (E : Environment) :
  (60 <= GET_ttlSeconds E)%Q /\ (GET_ttlSeconds E <= 86400)%Q.
Proof. apply clamp_bounds. lra. Qed.

Lemma refreshed_row_expires `{Runtime} (E : Environment) (req : Request)
    (lat lng : Q) (ids : list string) (t : Z) :
  t + 60000 <= expires_at (refreshed_row E req lat lng ids t).
Proof.
  cbn [refreshed_row expires_at]. apply new_Date_lower.
  destruct (GET_ttlSeconds_bounds E) as [Hlo _].
  rewrite inject_Z_plus. change (inject_Z 60000) with 60000%Q. lra.
Qed.

(** The run of a refresh whose upstream call and writes succeed: at time
    [t] the answer of the provider is normalized into [ups]; these rows are
    upserted if there are any; at time [t'] the cache entry is written; the
    places are read back. *)
Lemma GET_miss_run
    `{Runtime} (E : Environment) (req : Request) (w : World) (lat lng : Q)
    (places : option (list GooglePlace)) :
  toNumber (searchParams req !! "lat"%string) = Some lat ->
  toNumber (searchParams req !! "lng"%string) = Some lng ->
  store_error E SelectPlacesCache = None ->
  usable (places_cache w !! GET_key E req lat lng)
         (clock w + latency E SelectPlacesCache) = false ->
  places_api E lat lng (GET_radiusM req) = FetchOk places ->
  store_error E UpsertPlacesCache = None ->
  let t := clock w + latency E SelectPlacesCache + latency E FetchPlaces in
  let ups := omap (normalize t) (default [] places) in
  ups = [] \/ store_error E UpsertCafes = None ->
  let t' := if (length ups =? 0)%nat then t else t + latency E UpsertCafes in
  let row := refreshed_row E req lat lng (place_id <$> ups) t' in
  let w' := (GET E req w).2 in
  places_cache w' = <[GET_key E req lat lng := row]> (places_cache w) /\
  cafes w' = (foldl (upsert_cafe E) (cafes w, next_id w) ups).1 /\
  (GET E req w).1 =
    match store_error E SelectCafesIn with
    | None =>
        json_response 200
          (NearbyBody "google" (GET_key E req lat lng) (GET_radiusM req)
                      (cafes_in (place_id <$> ups) (cafes w')))
    | Some e => internal_error e
    end.
Proof.
  intros Hlat Hlng He1 Hus Hapi He3 t ups He2 t' row w'. subst w'.
  unfold GET, try_catch, GET_try. rewrite Hlat, Hlng. cbv zeta.
  erewrite bind_returned by (apply select_places_cache_ok; exact He1).
  erewrite bind_returned by reflexivity.
  world_simpl. rewrite Hus.
  erewrite bind_returned by (apply searchNearbyPlaces_ok; exact Hapi).
  erewrite bind_returned by reflexivity.
  world_simpl. fold t. fold ups.
  subst row t'. destruct (length ups =? 0)%nat eqn:Hlen.
  - apply Nat.eqb_eq in Hlen. apply length_zero_iff_nil in Hlen.
    erewrite bind_returned by reflexivity.
    erewrite bind_returned by reflexivity.
    erewrite bind_returned by (apply upsert_places_cache_ok; exact He3).
    rewrite Hlen. world_simpl.
    run_store_call E SelectCafesIn select_cafes_in_ok select_cafes_in_error;
      world_simpl; repeat split; reflexivity.
  - destruct He2 as [He2|He2]; [rewrite He2 in Hlen; discriminate |].
    erewrite bind_returned by (apply upsert_cafes_ok; exact He2).
    erewrite bind_returned by reflexivity.
    erewrite bind_returned by (apply upsert_places_cache_ok; exact He3).
    world_simpl.
    run_store_call E SelectCafesIn select_cafes_in_ok select_cafes_in_error;
      world_simpl; repeat split; reflexivity.
Qed.


(** C5 (as the code has it). On the cache-miss path, after persisting the
    places and the cache entry, the resolver re-reads the rows of [cafes]
    by the identifier set it has just written and returns them in a result
    whose source field is the string "google". *)
Theorem GET_miss_returns_source_google
    `{Runtime} (E : Environment) (req : Request) (w : World) (lat lng : Q)
    (places : option (list GooglePlace)) :
  toNumber (searchParams req !! "lat"%string) = Some lat ->
  toNumber (searchParams req !! "lng"%string) = Some lng ->
  usable (places_cache w !! GET_key E req lat lng)
         (clock w + latency E SelectPlacesCache) = false ->
  places_api E lat lng (GET_radiusM req) = FetchOk places ->
  (forall c, store_error E c = None) ->
  let r := (GET E req w).1 in
  let w' := (GET E req w).2 in
  exists row ids,
    places_cache w' !! GET_key E req lat lng = Some row /\
    place_ids row = Some ids /\
    r = json_response 200
          (NearbyBody "google" (GET_key E req lat lng) (GET_radiusM req)
                      (cafes_in ids (cafes w'))) /\
    source_of r = Some "google"%string.
Proof.
  intros Hlat Hlng Hus Hapi Hok r w'.
  destruct (GET_miss_run E req w lat lng places Hlat Hlng
              (Hok SelectPlacesCache) Hus Hapi (Hok UpsertPlacesCache)
              (or_intror (Hok UpsertCafes))) as (Hcache & _ & Hr).
  rewrite (Hok SelectCafesIn) in Hr. fold w' in Hcache, Hr. fold r in Hr.
  eexists _, _. split; [rewrite Hcache; apply lookup_insert_eq |].
  split; [reflexivity |]. split; [exact Hr |].
  rewrite Hr. reflexivity.
Qed.

Lemma normalize_discards (now : Z) (places : list GooglePlace) :
  Forall lacks_id_or_coordinates places -> omap (normalize now) places = [].
Proof.
  induction 1 as [|p places Hp _ IH]; [reflexivity |].
  cbn [omap list_omap]. fold (omap (normalize now) places). rewrite IH.
  unfold normalize.
  destruct Hp as [-> | [-> | ->]]; [reflexivity | | ].
  - destruct (gp_location p) as [[? ?]|]; reflexivity.
  - destruct (gp_id p); reflexivity.
Qed.

(** C9 (as the code has it). When the upstream provider returns an empty
    result, or only records that are discarded for lacking an identifier or
    coordinates, no place is upserted, and the resolver still writes, under
    the derived key, a cache entry whose place-identifier set is empty. Such
    an entry is never served: every later lookup that finds it calls the
    upstream provider again. *)
Theorem GET_empty_result_written_never_served
    `{Runtime} (E : Environment) (req : Request) (w : World) (lat lng : Q)
    (places : option (list GooglePlace)) :
  toNumber (searchParams req !! "lat"%string) = Some lat ->
  toNumber (searchParams req !! "lng"%string) = Some lng ->
  store_error E SelectPlacesCache = None ->
  store_error E UpsertPlacesCache = None ->
  usable (places_cache w !! GET_key E req lat lng)
         (clock w + latency E SelectPlacesCache) = false ->
  places_api E lat lng (GET_radiusM req) = FetchOk places ->
  Forall lacks_id_or_coordinates (default [] places) ->
  let w' := (GET E req w).2 in
  cafes w' = cafes w /\
  exists row,
    places_cache w' !! GET_key E req lat lng = Some row /\
    place_ids row = Some [] /\
    (forall now, usable (Some row) now = false) /\
    (forall w2, places_cache w2 !! GET_key E req lat lng = Some row ->
                upstream_calls (trace (GET E req w2).2)
                = S (upstream_calls (trace w2))).
Proof.
  intros Hlat Hlng He1 He3 Hus Hapi Hdisc w'.
  pose proof (normalize_discards
                (clock w + latency E SelectPlacesCache + latency E FetchPlaces)
                _ Hdisc) as Hnil.
  destruct (GET_miss_run E req w lat lng places Hlat Hlng He1 Hus Hapi He3
              (or_introl Hnil)) as (Hcache & Hcafes & _).
  fold w' in Hcache, Hcafes. rewrite Hnil in Hcache, Hcafes.
  split; [exact Hcafes |].
  eexists. split; [rewrite Hcache; apply lookup_insert_eq |].
  split; [reflexivity |].
  assert (Hnever : forall now,
            usable (Some (refreshed_row E req lat lng [] 
              (clock w + latency E SelectPlacesCache + latency E FetchPlaces))) now
            = false).
  { intros now. apply usable_false. right. eexists. split; [reflexivity |].
    right. reflexivity. }
  split; [exact Hnever |].
  intros w2 Hw2.
  apply (GET_unusable_calls_upstream E req w2 lat lng Hlat Hlng He1).
  rewrite Hw2. apply Hnever.
Qed.

(** ** Which calls a handler makes *)

Section Emits.

Context (P : Event -> Prop).

Lemma emits_ret {A} (a : A) : emits P (ret a).
Proof. intros w. exists []. rewrite app_nil_r. auto. Qed.

Lemma emits_throw {A} (e : Error) : emits P (@throw A e).
Proof. intros w. exists []. rewrite app_nil_r. auto. Qed.

Lemma emits_Date_now : emits P Date_now.
Proof. intros w. exists []. rewrite app_nil_r. auto. Qed.

Lemma emits_silent {A} (m : M A) :
  (forall w, trace (m w).2 = trace w) -> emits P m.
Proof. intros Hm w. exists []. rewrite app_nil_r, Hm. auto. Qed.

Lemma emits_bind {A B} (m : M A) (k : A -> M B) :
  emits P m -> (forall a, emits P (k a)) -> emits P (bind m k).
Proof.
  intros Hm Hk w. unfold bind.
  destruct (Hm w) as (evs1 & Ht1 & HP1).
  destruct (m w) as [[a|e] w1]; cbn [snd] in *.
  - destruct (Hk a w1) as (evs2 & Ht2 & HP2).
    exists (evs1 ++ evs2). rewrite Ht2, Ht1, app_assoc.
    split; [reflexivity | apply Forall_app; auto].
  - exists evs1. auto.
Qed.

Lemma emits_await (E : Environment) (c : Call) (ev : Event) :
  P ev -> emits P (await E c ev).
Proof. intros Hev w. exists [ev]. split; [reflexivity | auto]. Qed.

Lemma emits_store_call {A} (E : Environment) (c : Call) (ev : Event)
    (data : M A) :
  P ev -> (forall w, trace (data w).2 = trace w) ->
  emits P (store_call E c ev data).
Proof.
  intros Hev Hdata. unfold store_call. apply emits_bind.
  - apply emits_await. exact Hev.
  - intros _. unfold or_throw.
    destruct (store_error E c); [apply emits_throw | apply emits_silent, Hdata].
Qed.

Lemma emits_try_catch {A} (m : M A) (h : Error -> A) (w : World) :
  emits P m ->
  exists evs, trace (try_catch m h w).2 = trace w ++ evs /\ Forall P evs.
Proof.
  intros Hm. unfold try_catch. destruct (Hm w) as (evs & Ht & HP).
  exists evs. destruct (m w) as [[a|e] w1]; auto.
Qed.

Lemma bind_first_event {A B} (m : M A) (k : A -> M B) (ev : Event) :
  (forall w, trace (m w).2 = trace w ++ [ev]) ->
  (forall a, emits P (k a)) ->
  forall w, exists evs,
    trace (bind m k w).2 = trace w ++ ev :: evs /\ Forall P evs.
Proof.
  intros Hm Hk w. unfold bind. specialize (Hm w).
  destruct (m w) as [[a|e] w1]; cbn [snd] in *.
  - destruct (Hk a w1) as (evs & Ht & HP).
    exists evs. rewrite Ht, Hm, <- app_assoc. auto.
  - exists []. auto.
Qed.

Lemma try_catch_trace {A} (m : M A) (h : Error -> A) (w : World) :
  trace (try_catch m h w).2 = trace (m w).2.
Proof. unfold try_catch. destruct (m w) as [[a|e] w1]; reflexivity. Qed.

End Emits.

Lemma GET_try_emits `{Runtime} (P : Event -> Prop) (E : Environment)
    (req : Request) :
  (forall e, is_resolver_event e = true -> P e) ->
  emits P (GET_try E req).
Proof.
  intros HP. unfold GET_try.
  destruct (toNumber (searchParams req !! "lat"%string)) as [lat|];
    [| apply emits_ret].
  destruct (toNumber (searchParams req !! "lng"%string)) as [lng|];
    [| apply emits_ret].
  cbv zeta.
  assert (Hsel : forall ids, emits P (select_cafes_in E ids)).
  { intros ids. apply emits_store_call; [apply HP |]; reflexivity. }
  apply emits_bind; [apply emits_store_call; [apply HP |]; reflexivity |].
  intros cacheRow. apply emits_bind; [apply emits_Date_now |]. intros now.
  destruct (usable cacheRow now).
  { apply emits_bind; [apply Hsel | intros; apply emits_ret]. }
  apply emits_bind.
  { unfold searchNearbyPlaces. apply emits_bind.
    - apply emits_await, HP. reflexivity.
    - intros _. destruct (places_api E lat lng (GET_radiusM req));
        [apply emits_ret | apply emits_throw | apply emits_throw]. }
  intros places. apply emits_bind; [apply emits_Date_now |]. intros t.
  apply emits_bind.
  { destruct (_ =? _)%nat; [apply emits_ret |].
    apply emits_store_call; [apply HP |]; reflexivity. }
  intros _. apply emits_bind; [apply emits_Date_now |]. intros t'.
  apply emits_bind; [apply emits_store_call; [apply HP |]; reflexivity |].
  intros _. apply emits_bind; [apply Hsel | intros; apply emits_ret].
Qed.

Lemma enforceRateLimit_trace `{Runtime} (E : Environment) (req : Request)
    (route : string) (limit windowSeconds : Z) (w : World) :
  trace (enforceRateLimit E req route limit windowSeconds w).2 =
  trace w ++ [EvRateLimitHit route (sha256Base64Url (getClientIp req))
                             windowSeconds limit].
Proof.
  unfold enforceRateLimit, bind, store_call, or_throw. cbn [await bind].
  destruct (store_error E RpcRateLimitHit); reflexivity.
Qed.

(** The calls of the two handlers. Whatever the request, the
    configuration and the state of the store, the calls that [GET] makes
    are calls of the resolver (cache lookup, upstream fetch, writes,
    read-back), none of them a rate-limit decision: the limiter that
    lib/rateLimit.ts offers for "GET /api/cafes" is called by the handler
    on no request. The first call that [POST] makes, on every
    request, is the rate-limit decision, and it is the only one. *)
Lemma handlers_calls
    `{Runtime} (E : Environment) (req : Request) (w : World) :
  (exists evs,
     trace (GET E req w).2 = trace w ++ evs /\
     Forall (fun e => is_resolver_event e = true /\
                      is_rate_limit_event e = false) evs) /\
  (exists evs,
     trace (POST E req w).2 =
       trace w ++ EvRateLimitHit "POST /api/checkins"
                    (sha256Base64Url (getClientIp req)) 60 10 :: evs /\
     Forall (fun e => is_rate_limit_event e = false /\
                      is_resolver_event e = false) evs).
Proof.
  split.
  - apply emits_try_catch, GET_try_emits.
    intros [] He; (discriminate He || (split; reflexivity)).
  - unfold POST. rewrite try_catch_trace. unfold POST_try.
    apply bind_first_event; [apply enforceRateLimit_trace |].
    intros rl. destruct (negb (allowed rl)).
    + apply emits_bind; [apply emits_Date_now | intros; apply emits_ret].
    + destruct (json req) as [e|[[[|a s]|]|]];
        try apply emits_throw; try apply emits_ret.
      apply emits_bind.
      * apply emits_store_call; [split; reflexivity | reflexivity].
      * intros [c|]; [| apply emits_ret].
        apply emits_bind; [apply emits_Date_now |]. intros now.
        apply emits_bind; [| intros; apply emits_ret].
        apply emits_store_call; [split; reflexivity | reflexivity].
Qed.

(** ** The rate limiter *)

Lemma enforceRateLimit_ok `{Runtime} (E : Environment) (req : Request)
    (route : string) (limit windowSeconds : Z) (w : World) :
  store_error E RpcRateLimitHit = None ->
  let ev := EvRateLimitHit route (sha256Base64Url (getClientIp req))
                           windowSeconds limit in
  let w1 := (await E RpcRateLimitHit ev w).2 in
  let r := rate_limit_hit E route (sha256Base64Url (getClientIp req))
             windowSeconds limit (clock w1) (rate_limits w1) in
  let row := match r.1 with
             | DataArray rows => head rows
             | DataObject r => Some r
             | DataNull => None
             end in
  enforceRateLimit E req route limit windowSeconds w =
  (Returned {| allowed := default false (row ≫= rl_allowed);
               used := default 0 (row ≫= rl_used);
               limit := default limit (row ≫= rl_limit);
               resetAt := default (clock w1 + windowSeconds * 1000)
                                  (row ≫= rl_reset_at) |},
   set_rate_limits r.2 w1).
Proof.
  intros He ev w1 r row. unfold enforceRateLimit.
  erewrite bind_returned by (rewrite store_call_ok by exact He; reflexivity).
  reflexivity.
Qed.

(** C8. For every input on which the store's atomic increment-and-read
    operation fails, the rate limiter throws the error of the store to its
    caller: it returns no result at all, hence none with [allowed = true].
    The check-in handler, its caller, then answers 500 with the message of
    that error. *)
Theorem enforceRateLimit_propagates_store_error
    `{Runtime} (E : Environment) (req : Request) (route : string)
    (limit windowSeconds : Z) (w : World) (e : Error) :
  store_error E RpcRateLimitHit = Some e ->
  (enforceRateLimit E req route limit windowSeconds w).1 = Thrown e /\
  (forall r, (enforceRateLimit E req route limit windowSeconds w).1 <> Returned r) /\
  (POST E req w).1 = internal_error e.
Proof.
  intros He.
  assert (Hrun : forall route limit windowSeconds,
            enforceRateLimit E req route limit windowSeconds w =
            (Thrown e,
             (await E RpcRateLimitHit
                (EvRateLimitHit route (sha256Base64Url (getClientIp req))
                                windowSeconds limit) w).2)).
  { intros. unfold enforceRateLimit.
    erewrite bind_thrown by (apply store_call_error; exact He). reflexivity. }
  rewrite Hrun. repeat split.
  - intros r Hr. discriminate Hr.
  - unfold POST, try_catch, POST_try.
    erewrite bind_thrown by apply Hrun. reflexivity.
Qed.

Lemma getClientIp_no_headers `{Runtime} (req : Request) :
  headers req !! "x-forwarded-for"%string = None ->
  headers req !! "x-real-ip"%string = None ->
  getClientIp req = "0.0.0.0"%string.
Proof. intros H1 H2. unfold getClientIp. rewrite H1, H2. reflexivity. Qed.

(** C10. For every request that carries neither an x-forwarded-for nor an
    x-real-ip header the client identity is the constant "0.0.0.0": two such
    requests have the same fingerprint and make the same call to the store
    (same route, fingerprint, window and limit); with the counter of
    section 4.2 of the specification they increment one and the same
    counter, the second request in a window seeing the count of the first
    plus one. *)
Theorem headerless_clients_share_counter
    `{Runtime} (E : Environment) (req1 req2 : Request) (route : string)
    (limit windowSeconds : Z) (w : World) :
  headers req1 !! "x-forwarded-for"%string = None ->
  headers req1 !! "x-real-ip"%string = None ->
  headers req2 !! "x-forwarded-for"%string = None ->
  headers req2 !! "x-real-ip"%string = None ->
  let run1 := enforceRateLimit E req1 route limit windowSeconds w in
  let run2 := enforceRateLimit E req2 route limit windowSeconds run1.2 in
  let hit := EvRateLimitHit route (sha256Base64Url "0.0.0.0")
                            windowSeconds limit in
  getClientIp req1 = "0.0.0.0"%string /\
  getClientIp req2 = "0.0.0.0"%string /\
  sha256Base64Url (getClientIp req1) = sha256Base64Url (getClientIp req2) /\
  trace run2.2 = trace w ++ [hit; hit] /\
  (rate_limit_hit E = spec_rate_limit_hit ->
   store_error E RpcRateLimitHit = None ->
   (clock w + latency E RpcRateLimitHit) / (windowSeconds * 1000) =
   (clock w + latency E RpcRateLimitHit + latency E RpcRateLimitHit)
     / (windowSeconds * 1000) ->
   exists r1 r2,
     run1.1 = Returned r1 /\ run2.1 = Returned r2 /\
     used r2 = used r1 + 1 /\ resetAt r2 = resetAt r1).
Proof.
  intros H1 H2 H3 H4 run1 run2 hit.
  pose proof (getClientIp_no_headers req1 H1 H2) as Hip1.
  pose proof (getClientIp_no_headers req2 H3 H4) as Hip2.
  split; [exact Hip1 |]. split; [exact Hip2 |].
  split; [rewrite Hip1, Hip2; reflexivity |].
  split.
  - subst run2 run1. rewrite !enforceRateLimit_trace, Hip1, Hip2, <- app_assoc.
    reflexivity.
  - intros Hrpc He Hwin. subst run2 run1.
    rewrite (enforceRateLimit_ok E req1) by exact He. cbn [fst snd].
    rewrite (enforceRateLimit_ok E req2) by exact He. cbn [fst snd].
    rewrite Hip1, Hip2, Hrpc. eexists _, _.
    split; [reflexivity |]. split; [reflexivity |].
    unfold spec_rate_limit_hit. world_simpl.
    cbn [head mbind option_bind rl_used rl_reset_at default from_option used resetAt].
    rewrite <- Hwin. rewrite lookup_insert_eq. split; reflexivity.
Qed.

(** ** The claims on concrete runs *)

Lemma GET_fresh_entry_served_from_cache_witness :
  upstream_calls (trace (@GET Sample.runtime Sample.E_places Sample.request Sample.warm).2)
  = upstream_calls (trace Sample.warm) /\
  source_of (@GET Sample.runtime Sample.E_places Sample.request Sample.warm).1
  = Some "cache"%string.
Proof.
  destruct (@GET_fresh_entry_served_from_cache Sample.runtime
              Sample.E_places Sample.request Sample.warm
              37.7749%Q (-122.4194)%Q
              (@refreshed_row Sample.runtime Sample.E_places Sample.request
                 37.7749%Q (-122.4194)%Q ["p1"%string] 1700000000015)
              ["p1"%string])
    as [Hcalls Hresp].
  - vm_compute. reflexivity.
  - vm_compute. reflexivity.
  - vm_compute. reflexivity.
  - vm_compute. reflexivity.
  - reflexivity.
  - discriminate.
  - split; [exact Hcalls |].
    destruct Hresp as [Hr _]; [reflexivity | reflexivity |].
    rewrite Hr. reflexivity.
Defined.



Lemma GET_miss_returns_source_google_witness :
  source_of (@GET Sample.runtime Sample.E_places Sample.request Sample.start).1
  = Some "google"%string.
Proof.
  destruct (@GET_miss_returns_source_google Sample.runtime
              Sample.E_places Sample.request Sample.start
              37.7749%Q (-122.4194)%Q (Some Sample.two_places))
    as (row & ids & _ & _ & _ & Hsource).
  - vm_compute. reflexivity.
  - vm_compute. reflexivity.
  - vm_compute. reflexivity.
  - reflexivity.
  - intros c. reflexivity.
  - exact Hsource.
Defined.

(** C5, as the claim words it, fails: the source field of the result of
    the miss path is not the string "upstream". *)
Lemma GET_miss_source_is_not_upstream :
  source_of (@GET Sample.runtime Sample.E_places Sample.request Sample.start).1
  <> Some "upstream"%string.
Proof. vm_compute. discriminate. Qed.

(** C7 (the code at the failing input). On
    GET /api/cafes?lat=37.7749&lng=-122.4194 with an empty cache the first
    call of the run is the cache lookup of the resolver, the places API is
    called once, and the run contains no rate-limit decision: the resolver
    executes without the preceding decision that the claim requires. *)
Lemma GET_runs_resolver_without_rate_limit :
  let tr := trace (@GET Sample.runtime Sample.E_places Sample.request Sample.start).2 in
  head tr = Some (EvSelectPlacesCache Sample.key) /\
  upstream_calls tr = 1%nat /\
  existsb is_rate_limit_event tr = false.
Proof. vm_compute. repeat split; reflexivity. Qed.

Lemma GET_empty_result_written_never_served_witness :
  exists row,
    places_cache (@GET Sample.runtime (Sample.E_empty None) Sample.request Sample.start).2
      !! Sample.key = Some row /\
    place_ids row = Some [] /\
    upstream_calls
      (trace (@GET Sample.runtime (Sample.E_empty None) Sample.request
                Sample.empty_cached).2)
    = S (upstream_calls (trace Sample.empty_cached)).
Proof.
  destruct (@GET_empty_result_written_never_served Sample.runtime
              (Sample.E_empty None) Sample.request Sample.start
              37.7749%Q (-122.4194)%Q (Some []))
    as (_ & row & Hrow & Hids & _ & _).
  - vm_compute. reflexivity.
  - vm_compute. reflexivity.
  - reflexivity.
  - reflexivity.
  - vm_compute. reflexivity.
  - reflexivity.
  - constructor.
  - exists row. split; [exact Hrow |]. split; [exact Hids |].
    vm_compute. reflexivity.
Defined.

(** C9, as the claim words it, fails: the places API answering with no
    place, the resolver writes a cache entry for the derived key that
    records an empty bucket. *)
Lemma GET_caches_empty_result :
  places_cache Sample.start !! Sample.key = None /\
  exists row,
    places_cache (@GET Sample.runtime (Sample.E_empty None) Sample.request Sample.start).2
      !! Sample.key = Some row /\
    place_ids row = Some [].
Proof.
  split; [reflexivity |]. eexists. split; [vm_compute; reflexivity | reflexivity].
Qed.

Lemma enforceRateLimit_propagates_store_error_witness :
  (@enforceRateLimit Sample.runtime Sample.E_rpc_down
     (Sample.checkin ∅ "row-0") "POST /api/checkins" 10 60 Sample.start).1
  = Thrown {| message := Some "connection refused"%string |} /\
  status (@POST Sample.runtime Sample.E_rpc_down (Sample.checkin ∅ "row-0")
            Sample.start).1 = 500.
Proof.
  destruct (@enforceRateLimit_propagates_store_error Sample.runtime
              Sample.E_rpc_down (Sample.checkin ∅ "row-0")
              "POST /api/checkins" 10 60 Sample.start
              {| message := Some "connection refused"%string |})
    as (Hthrown & _ & Hpost).
  - reflexivity.
  - split; [exact Hthrown |]. rewrite Hpost. reflexivity.
Defined.

Lemma headerless_clients_share_counter_witness :
  let req1 := Sample.checkin ∅ "row-0" in
  let req2 := Sample.checkin {[ "user-agent"%string := "curl/8"%string ]} "row-7" in
  let run1 := @enforceRateLimit Sample.runtime Sample.E_places req1
                "POST /api/checkins" 10 60 Sample.start in
  let run2 := @enforceRateLimit Sample.runtime Sample.E_places req2
                "POST /api/checkins" 10 60 run1.2 in
  exists r1 r2,
    run1.1 = Returned r1 /\ run2.1 = Returned r2 /\
    used r2 = used r1 + 1 /\ resetAt r2 = resetAt r1.
Proof.
  intros req1 req2 run1 run2.
  destruct (@headerless_clients_share_counter Sample.runtime Sample.E_places
              req1 req2 "POST /api/checkins" 10 60 Sample.start)
    as (_ & _ & _ & _ & Hshare).
  - reflexivity.
  - reflexivity.
  - vm_compute. reflexivity.
  - vm_compute. reflexivity.
  - apply Hshare; reflexivity.
Defined.

(** * More of the code *)

(** ** Requests the resolver refuses *)

Lemma GET_invalid_run
    `{Runtime} (E : Environment) (req : Request) (w : World) :
  toNumber (searchParams req !! "lat"%string) = None \/
  toNumber (searchParams req !! "lng"%string) = None ->
  GET E req w = (json_response 400 (ErrorBody "Missing/invalid lat or lng"), w).
Proof.
  intros [Hlat|Hlng]; unfold GET, try_catch, GET_try.
  - rewrite Hlat. reflexivity.
  - rewrite Hlng.
    destruct (toNumber (searchParams req !! "lat"%string)); reflexivity.
Qed.

(** X1. A query whose latitude or longitude is missing or is not a finite
    number is answered with 400 before anything else happens: no call to
    the store or to the places API is made, and the world is left exactly
    as it was. *)
Theorem GET_rejects_invalid_coordinates
    `{Runtime} (E : Environment) (req : Request) (w : World) :
  toNumber (searchParams req !! "lat"%string) = None \/
  toNumber (searchParams req !! "lng"%string) = None ->
  GET E req w = (json_response 400 (ErrorBody "Missing/invalid lat or lng"), w) /\
  status (GET E req w).1 = 400 /\
  trace (GET E req w).2 = trace w.
Proof.
  intros Hbad. rewrite (GET_invalid_run E req w Hbad). repeat split; reflexivity.
Qed.

Lemma GET_rejects_invalid_coordinates_witness :
  @GET Sample.runtime Sample.E_places Fixtures.no_lat Sample.start
  = (json_response 400 (ErrorBody "Missing/invalid lat or lng"), Sample.start).
Proof.
  apply (@GET_rejects_invalid_coordinates Sample.runtime).
  left. vm_compute. reflexivity.
Defined.

(** ** Buckets *)

Lemma Qfloor_unique (x : Q) (k : Z) :
  (inject_Z k <= x)%Q -> (x < inject_Z k + 1)%Q -> Qfloor x = k.
Proof.
  intros Hlo Hhi.
  pose proof (Qfloor_le x) as Hf1. pose proof (Qlt_floor x) as Hf2.
  rewrite inject_Z_plus in Hf2. change (inject_Z 1) with 1%Q in Hf2.
  assert (H1 : (inject_Z k < inject_Z (Qfloor x + 1))%Q)
    by (rewrite inject_Z_plus; change (inject_Z 1) with 1%Q; lra).
  assert (H2 : (inject_Z (Qfloor x) < inject_Z (k + 1))%Q)
    by (rewrite inject_Z_plus; change (inject_Z 1) with 1%Q; lra).
  rewrite <- Zlt_Qlt in H1, H2. lia.
Qed.

Lemma roundCoord_in_bucket (n p x y : Q) (k : Z) :
  fl n = Num x -> fl (x * Math_pow 10 p) = Num y ->
  (inject_Z k - (1 # 2) <= y)%Q -> (y < inject_Z k + (1 # 2))%Q ->
  roundCoord n p = fl (inject_Z k / Math_pow 10 p).
Proof.
  intros Hx Hy Hlo Hhi. unfold roundCoord, Math_round. rewrite Hx, Hy.
  rewrite (Qfloor_unique (y + (1 # 2)) k) by lra. reflexivity.
Qed.

(** X2. The cache key depends on the coordinates only through the integer
    that [Math.round] makes of their binary64 product with [10^p]: two
    queries whose latitudes have products in the same interval
    [[k - 1/2, k + 1/2)], and likewise their longitudes, get the same key
    for the same radius, whatever integer the precision is set to. *)
Theorem cacheKey_same_bucket
    `{Runtime} (env : option Z) (lat lat' lng lng' radiusM : Q)
    (x y x' y' u v u' v' : Q) (k l : Z) :
  let precision := clamp (inject_Z (default 3 env)) 2 5 in
  let f := Math_pow 10 precision in
  fl lat = Num x -> fl (x * f) = Num y ->
  (inject_Z k - (1 # 2) <= y)%Q -> (y < inject_Z k + (1 # 2))%Q ->
  fl lat' = Num x' -> fl (x' * f) = Num y' ->
  (inject_Z k - (1 # 2) <= y')%Q -> (y' < inject_Z k + (1 # 2))%Q ->
  fl lng = Num u -> fl (u * f) = Num v ->
  (inject_Z l - (1 # 2) <= v)%Q -> (v < inject_Z l + (1 # 2))%Q ->
  fl lng' = Num u' -> fl (u' * f) = Num v' ->
  (inject_Z l - (1 # 2) <= v')%Q -> (v' < inject_Z l + (1 # 2))%Q ->
  cacheKey lat lng radiusM precision = cacheKey lat' lng' radiusM precision.
Proof.
  intros precision f Hx Hy H1 H2 Hx' Hy' H3 H4 Hu Hv H5 H6 Hu' Hv' H7 H8.
  unfold cacheKey.
  rewrite (roundCoord_in_bucket lat precision x y k Hx Hy H1 H2).
  rewrite (roundCoord_in_bucket lat' precision x' y' k Hx' Hy' H3 H4).
  rewrite (roundCoord_in_bucket lng precision u v l Hu Hv H5 H6).
  rewrite (roundCoord_in_bucket lng' precision u' v' l Hu' Hv' H7 H8).
  reflexivity.
Qed.

Lemma cacheKey_same_bucket_witness :
  @cacheKey Sample.runtime 37.7749%Q (-122.4194)%Q 1500%Q
            (clamp (inject_Z (default 3 None)) 2 5)
  = @cacheKey Sample.runtime 37.7751%Q (-122.4189)%Q 1500%Q
              (clamp (inject_Z (default 3 None)) 2 5).
Proof.
  eapply (@cacheKey_same_bucket Sample.runtime None
            37.7749%Q 37.7751%Q (-122.4194)%Q (-122.4189)%Q 1500%Q
            _ _ _ _ _ _ _ _ 37775 (-122419)).
  - vm_compute. reflexivity.
  - vm_compute. reflexivity.
  - vm_compute. congruence.
  - vm_compute. reflexivity.
  - vm_compute. reflexivity.
  - vm_compute. reflexivity.
  - vm_compute. congruence.
  - vm_compute. reflexivity.
  - vm_compute. reflexivity.
  - vm_compute. reflexivity.
  - vm_compute. congruence.
  - vm_compute. reflexivity.
  - vm_compute. reflexivity.
  - vm_compute. reflexivity.
  - vm_compute. congruence.
  - vm_compute. reflexivity.
Defined.

(** ** Failures of the resolver's collaborators *)

Section ResolverRuns.

Context `{Runtime} (E : Environment) (req : Request) (w : World) (lat lng : Q).
Hypothesis Hlat : toNumber (searchParams req !! "lat"%string) = Some lat.
Hypothesis Hlng : toNumber (searchParams req !! "lng"%string) = Some lng.

Let key := GET_key E req lat lng.
Let w1 := (await E SelectPlacesCache (EvSelectPlacesCache key) w).2.
Let w2 := (await E FetchPlaces (EvFetchPlaces lat lng (GET_radiusM req)) w1).2.

Lemma GET_lookup_error_run (e : Error) :
  store_error E SelectPlacesCache = Some e ->
  GET E req w = (internal_error e, w1).
Proof.
  intros He. unfold GET, try_catch, GET_try. rewrite Hlat, Hlng. cbv zeta.
  erewrite bind_thrown by (apply select_places_cache_error; exact He).
  reflexivity.
Qed.

Lemma GET_hit_run :
  store_error E SelectPlacesCache = None ->
  usable (places_cache w !! key) (clock w + latency E SelectPlacesCache) = true ->
  let ids := default [] (places_cache w !! key ≫= place_ids) in
  GET E req w =
  (match store_error E SelectCafesIn with
   | None => json_response 200
               (NearbyBody "cache" key (GET_radiusM req) (cafes_in ids (cafes w)))
   | Some e => internal_error e
   end,
   (await E SelectCafesIn (EvSelectCafesIn ids) w1).2).
Proof.
  intros He Hus ids. unfold GET, try_catch, GET_try. rewrite Hlat, Hlng. cbv zeta.
  erewrite bind_returned by (apply select_places_cache_ok; exact He).
  erewrite bind_returned by reflexivity.
  world_simpl. fold key. rewrite Hus. fold ids.
  run_store_call E SelectCafesIn select_cafes_in_ok select_cafes_in_error;
    reflexivity.
Qed.

Lemma GET_fetch_error_run :
  store_error E SelectPlacesCache = None ->
  usable (places_cache w !! key) (clock w + latency E SelectPlacesCache) = false ->
  (forall places, places_api E lat lng (GET_radiusM req) <> FetchOk places) ->
  GET E req w =
  (internal_error
     match places_api E lat lng (GET_radiusM req) with
     | FetchNotOk st text =>
         {| message := Some ("Google Places error "
                               +:+ number_to_string (inject_Z st)
                               +:+ ": " +:+ text) |}
     | FetchRejected e => e
     | FetchOk _ => {| message := None |}
     end,
   w2).
Proof.
  intros He Hus Hfail. unfold GET, try_catch, GET_try. rewrite Hlat, Hlng. cbv zeta.
  erewrite bind_returned by (apply select_places_cache_ok; exact He).
  erewrite bind_returned by reflexivity.
  world_simpl. fold key. rewrite Hus.
  unfold searchNearbyPlaces.
  unfold bind at 1. unfold bind at 1. cbn [await fst snd].
  destruct (places_api E lat lng (GET_radiusM req)) as [places|st text|e];
    [exfalso; exact (Hfail places eq_refl) | reflexivity | reflexivity].
Qed.

Section AfterFetch.

Context (places : option (list GooglePlace)).
Hypothesis He1 : store_error E SelectPlacesCache = None.
Hypothesis Hus :
  usable (places_cache w !! key) (clock w + latency E SelectPlacesCache) = false.
Hypothesis Hapi : places_api E lat lng (GET_radiusM req) = FetchOk places.

Let ups := omap (normalize (clock w2)) (default [] places).

Let Hus' : usable (places_cache w !! key) (clock w1) = false := Hus.

Lemma GET_upsert_cafes_error_run (e : Error) :
  ups <> [] ->
  store_error E UpsertCafes = Some e ->
  GET E req w =
  (internal_error e,
   (await E UpsertCafes (EvUpsertCafes (place_id <$> ups)) w2).2).
Proof.
  intros Hne He. unfold GET, try_catch, GET_try. rewrite Hlat, Hlng. cbv zeta.
  erewrite bind_returned by (apply select_places_cache_ok; exact He1).
  erewrite bind_returned by reflexivity.
  fold key. fold w1. rewrite Hus'.
  erewrite bind_returned by (apply searchNearbyPlaces_ok; exact Hapi).
  erewrite bind_returned by reflexivity.
  fold w2. fold ups.
  destruct (length ups =? 0)%nat eqn:Hlen.
  { apply Nat.eqb_eq, length_zero_iff_nil in Hlen. contradiction. }
  erewrite bind_thrown by (apply upsert_cafes_error; exact He).
  reflexivity.
Qed.

Lemma GET_upsert_cache_error_run (e : Error) :
  ups = [] \/ store_error E UpsertCafes = None ->
  store_error E UpsertPlacesCache = Some e ->
  let w3 := if (length ups =? 0)%nat then w2
            else let r := foldl (upsert_cafe E) (cafes w2, next_id w2) ups in
                 set_cafes r.1 r.2
                   (await E UpsertCafes (EvUpsertCafes (place_id <$> ups)) w2).2 in
  (GET E req w).1 = internal_error e /\
  places_cache (GET E req w).2 = places_cache w /\
  cafes (GET E req w).2 = cafes w3 /\
  cafes w3 = (foldl (upsert_cafe E) (cafes w, next_id w) ups).1.
Proof.
  intros He2 He3 w3. unfold GET, try_catch, GET_try. rewrite Hlat, Hlng. cbv zeta.
  erewrite bind_returned by (apply select_places_cache_ok; exact He1).
  erewrite bind_returned by reflexivity.
  fold key. fold w1. rewrite Hus'.
  erewrite bind_returned by (apply searchNearbyPlaces_ok; exact Hapi).
  erewrite bind_returned by reflexivity.
  fold w2. fold ups. subst w3.
  destruct (length ups =? 0)%nat eqn:Hlen.
  - apply Nat.eqb_eq, length_zero_iff_nil in Hlen.
    erewrite bind_returned by reflexivity.
    erewrite bind_returned by reflexivity.
    erewrite bind_thrown by (apply upsert_places_cache_error; exact He3).
    rewrite Hlen. repeat split; reflexivity.
  - destruct He2 as [He2|He2]; [rewrite He2 in Hlen; discriminate |].
    erewrite bind_returned by (apply upsert_cafes_ok; exact He2).
    erewrite bind_returned by reflexivity.
    erewrite bind_thrown by (apply upsert_places_cache_error; exact He3).
    repeat split; reflexivity.
Qed.

Lemma GET_miss_clock :
  ups = [] \/ store_error E UpsertCafes = None ->
  store_error E UpsertPlacesCache = None ->
  clock (GET E req w).2 =
  (if (length ups =? 0)%nat then clock w2 else clock w2 + latency E UpsertCafes)
  + latency E UpsertPlacesCache + latency E SelectCafesIn.
Proof.
  intros He2 He3. unfold GET, try_catch, GET_try. rewrite Hlat, Hlng. cbv zeta.
  erewrite bind_returned by (apply select_places_cache_ok; exact He1).
  erewrite bind_returned by reflexivity.
  fold key. fold w1. rewrite Hus'.
  erewrite bind_returned by (apply searchNearbyPlaces_ok; exact Hapi).
  erewrite bind_returned by reflexivity.
  fold w2. fold ups.
  destruct (length ups =? 0)%nat eqn:Hlen.
  - erewrite bind_returned by reflexivity.
    erewrite bind_returned by reflexivity.
    erewrite bind_returned by (apply upsert_places_cache_ok; exact He3).
    run_store_call E SelectCafesIn select_cafes_in_ok select_cafes_in_error;
      reflexivity.
  - destruct He2 as [He2|He2]; [rewrite He2 in Hlen; discriminate |].
    erewrite bind_returned by (apply upsert_cafes_ok; exact He2).
    erewrite bind_returned by reflexivity.
    erewrite bind_returned by (apply upsert_places_cache_ok; exact He3).
    run_store_call E SelectCafesIn select_cafes_in_ok select_cafes_in_error;
      reflexivity.
Qed.

End AfterFetch.

End ResolverRuns.

(** X4. When the cache lookup fails, the request fails with status 500 and
    the message of the store's error; the lookup is the only call made (the
    places API is not called) and no table of the resolver is written. *)
Theorem GET_lookup_failure
    `{Runtime} (E : Environment) (req : Request) (w : World) (lat lng : Q)
    (e : Error) :
  toNumber (searchParams req !! "lat"%string) = Some lat ->
  toNumber (searchParams req !! "lng"%string) = Some lng ->
  store_error E SelectPlacesCache = Some e ->
  (GET E req w).1 =
    json_response 500 (ErrorBody (default "Unknown error"%string (message e))) /\
  trace (GET E req w).2 = trace w ++ [EvSelectPlacesCache (GET_key E req lat lng)] /\
  resolver_tables (GET E req w).2 = resolver_tables w.
Proof.
  intros Hlat Hlng He.
  rewrite (GET_lookup_error_run E req w lat lng Hlat Hlng e He).
  repeat split; reflexivity.
Qed.

Lemma GET_lookup_failure_witness :
  status (@GET Sample.runtime
            (Fixtures.E_failing SelectPlacesCache (FetchOk None))
            Sample.request Sample.warm).1 = 500 /\
  resolver_tables
    (@GET Sample.runtime (Fixtures.E_failing SelectPlacesCache (FetchOk None))
       Sample.request Sample.warm).2 = resolver_tables Sample.warm.
Proof.
  destruct (@GET_lookup_failure Sample.runtime
              (Fixtures.E_failing SelectPlacesCache (FetchOk None))
              Sample.request Sample.warm 37.7749%Q (-122.4194)%Q
              {| message := Some "store unavailable"%string |})
    as (Hr & _ & Htables).
  - vm_compute. reflexivity.
  - vm_compute. reflexivity.
  - reflexivity.
  - split; [rewrite Hr; reflexivity | exact Htables].
Defined.

(** X5. When the places API does not answer with a success (a status that
    is not ok, a network error), the request fails with status 500; for a
    status that is not ok the message is "Google Places error", the status
    and the text of the answer. Nothing is written: the places and the
    cache entry are as before, and the cache is not refreshed. *)
Theorem GET_upstream_failure
    `{Runtime} (E : Environment) (req : Request) (w : World) (lat lng : Q) :
  toNumber (searchParams req !! "lat"%string) = Some lat ->
  toNumber (searchParams req !! "lng"%string) = Some lng ->
  store_error E SelectPlacesCache = None ->
  usable (places_cache w !! GET_key E req lat lng)
         (clock w + latency E SelectPlacesCache) = false ->
  (forall places, places_api E lat lng (GET_radiusM req) <> FetchOk places) ->
  status (GET E req w).1 = 500 /\
  resolver_tables (GET E req w).2 = resolver_tables w /\
  trace (GET E req w).2 =
    trace w ++ [EvSelectPlacesCache (GET_key E req lat lng);
                EvFetchPlaces lat lng (GET_radiusM req)] /\
  (forall st text,
     places_api E lat lng (GET_radiusM req) = FetchNotOk st text ->
     (GET E req w).1 =
       json_response 500
         (ErrorBody ("Google Places error " +:+ number_to_string (inject_Z st)
                       +:+ ": " +:+ text))) /\
  (forall e,
     places_api E lat lng (GET_radiusM req) = FetchRejected e ->
     (GET E req w).1 = internal_error e).
Proof.
  intros Hlat Hlng He Hus Hfail.
  rewrite (GET_fetch_error_run E req w lat lng Hlat Hlng He Hus Hfail).
  split; [reflexivity |]. split; [reflexivity |].
  split; [cbn [snd await trace set_clock set_trace]; rewrite <- app_assoc; reflexivity |].
  split.
  - intros st text ->. reflexivity.
  - intros e ->. reflexivity.
Qed.

Lemma GET_upstream_failure_witness :
  (@GET Sample.runtime
     (Sample.environment None None Sample.no_error 5
        (FetchNotOk 403 "API key not valid"))
     Sample.request Sample.stale).1
  = json_response 500 (ErrorBody "Google Places error 403: API key not valid") /\
  resolver_tables
    (@GET Sample.runtime
       (Sample.environment None None Sample.no_error 5
          (FetchNotOk 403 "API key not valid"))
       Sample.request Sample.stale).2 = resolver_tables Sample.stale.
Proof.
  destruct (@GET_upstream_failure Sample.runtime
              (Sample.environment None None Sample.no_error 5
                 (FetchNotOk 403 "API key not valid"))
              Sample.request Sample.stale 37.7749%Q (-122.4194)%Q)
    as (_ & Htables & _ & Hmsg & _).
  - vm_compute. reflexivity.
  - vm_compute. reflexivity.
  - reflexivity.
  - vm_compute. reflexivity.
  - intros places. discriminate.
  - split; [| exact Htables]. rewrite (Hmsg 403 "API key not valid"%string eq_refl).
    vm_compute. reflexivity.
Defined.

(** ** Normalization *)

Lemma normalize_Some (now : Z) (p : GooglePlace) (u : CafeUpsert) :
  normalize now p = Some u <->
  exists pid latitude longitude,
    gp_id p = Some pid /\ pid <> EmptyString /\
    gp_location p = Some (latitude, longitude) /\
    u = {| place_id := pid;
           up_fields :=
             {| name := default "Unknown"%string (mjoin (gp_displayName p));
                address := gp_formattedAddress p;
                lat := latitude; lng := longitude;
                google_rating := gp_rating p;
                user_ratings_total := gp_userRatingCount p;
                price_level := priceLevelInt (gp_priceLevel p);
                types := gp_types p |};
           up_last_fetched_at := now; up_updated_at := now |}.
Proof.
  unfold normalize. split.
  - destruct (gp_id p) as [pid|]; [| discriminate].
    destruct (gp_location p) as [[la lo]|]; [| discriminate].
    destruct pid as [|a pid]; [discriminate |].
    intros [= <-]. exists (String a pid), la, lo. repeat split. discriminate.
  - intros (pid & la & lo & -> & Hne & -> & ->).
    destruct pid; [contradiction | reflexivity].
Qed.

Lemma elem_of_normalized_ids (now : Z) (places : list GooglePlace) (pid : string) :
  pid ∈ place_id <$> omap (normalize now) places <->
  exists p, p ∈ places /\ kept_as pid p.
Proof.
  rewrite list_elem_of_fmap. split.
  - intros (u & -> & Hu). apply list_elem_of_omap in Hu as (p & Hp & Hn).
    apply normalize_Some in Hn as (pid & la & lo & Hid & Hne & Hloc & ->).
    exists p. split; [exact Hp |]. cbn [place_id].
    split; [exact Hid |]. split; [exact Hne |]. rewrite Hloc. eauto.
  - intros (p & Hp & Hid & Hne & [[la lo] Hloc]).
    eexists. split; [| apply list_elem_of_omap; exists p; split; [exact Hp |];
                       apply normalize_Some; eauto 10].
    reflexivity.
Qed.

Lemma normalized_nonempty (now : Z) (places : list GooglePlace) :
  (exists pid p, p ∈ places /\ kept_as pid p) ->
  omap (normalize now) places <> [].
Proof.
  intros (pid & p & Hp & Hk) Hnil.
  assert (Hin : pid ∈ place_id <$> omap (normalize now) places)
    by (apply elem_of_normalized_ids; eauto).
  rewrite Hnil in Hin. inversion Hin.
Qed.

(** X6. Normalization keeps a raw record exactly when it has a non-empty
    identifier and coordinates. A kept record carries that identifier and
    these coordinates, both timestamps are the time of normalization, a
    missing display name (or one without text) becomes "Unknown", and the
    price level is absent or one of 0, 1, 2, 3. *)
Theorem normalize_keeps_identified_located (now : Z) (p : GooglePlace) :
  (is_Some (normalize now p) <-> exists pid, kept_as pid p) /\
  (forall u, normalize now p = Some u ->
     gp_id p = Some (place_id u) /\
     gp_location p = Some (lat (up_fields u), lng (up_fields u)) /\
     up_last_fetched_at u = now /\ up_updated_at u = now /\
     (mjoin (gp_displayName p) = None -> name (up_fields u) = "Unknown"%string) /\
     (forall text, gp_displayName p = Some (Some text) ->
                   name (up_fields u) = text) /\
     (price_level (up_fields u) = None \/
      exists n, price_level (up_fields u) = Some n /\ 0 <= n <= 3)).
Proof.
  split.
  - split.
    + intros [u Hu]. apply normalize_Some in Hu as (pid & la & lo & ? & ? & Hloc & _).
      exists pid. repeat split; try assumption. rewrite Hloc. eauto.
    + intros (pid & Hid & Hne & [[la lo] Hloc]).
      eexists. apply normalize_Some. eauto 10.
  - intros u Hu. apply normalize_Some in Hu as (pid & la & lo & Hid & Hne & Hloc & ->).
    cbn [place_id up_fields lat lng up_last_fetched_at up_updated_at name price_level].
    repeat split; try assumption.
    + intros ->. reflexivity.
    + intros text ->. reflexivity.
    + pose proof (priceLevelInt_never_4 (gp_priceLevel p)) as H4.
      unfold priceLevelInt in *. destruct (gp_priceLevel p) as [s|]; [| auto].
      destruct (includes s "FREE"); [right; exists 0; split; [reflexivity | lia] |].
      destruct (includes s "INEXPENSIVE"); [right; exists 1; split; [reflexivity | lia] |].
      destruct (includes s "MODERATE"); [right; exists 2; split; [reflexivity | lia] |].
      destruct (includes s "EXPENSIVE"); [right; exists 3; split; [reflexivity | lia] |].
      destruct (includes s "VERY_EXPENSIVE"); [congruence | auto].
Qed.

(** ** Failures of the writes *)

(** X7. When the upsert of the places fails, the request fails with status
    500 and the bucket is not cached: no cache entry is written, and the
    table of places is as before. *)
Theorem GET_places_upsert_failure
    `{Runtime} (E : Environment) (req : Request) (w : World) (lat lng : Q)
    (places : option (list GooglePlace)) (e : Error) :
  toNumber (searchParams req !! "lat"%string) = Some lat ->
  toNumber (searchParams req !! "lng"%string) = Some lng ->
  store_error E SelectPlacesCache = None ->
  usable (places_cache w !! GET_key E req lat lng)
         (clock w + latency E SelectPlacesCache) = false ->
  places_api E lat lng (GET_radiusM req) = FetchOk places ->
  (exists pid p, p ∈ default [] places /\ kept_as pid p) ->
  store_error E UpsertCafes = Some e ->
  (GET E req w).1 = internal_error e /\
  status (GET E req w).1 = 500 /\
  resolver_tables (GET E req w).2 = resolver_tables w.
Proof.
  intros Hlat Hlng He1 Hus Hapi Hkept He2.
  rewrite (GET_upsert_cafes_error_run E req w lat lng Hlat Hlng places He1 Hus
             Hapi e (normalized_nonempty _ _ Hkept) He2).
  repeat split; reflexivity.
Qed.

Lemma GET_places_upsert_failure_witness :
  status (@GET Sample.runtime
            (Fixtures.E_failing UpsertCafes (FetchOk (Some Sample.two_places)))
            Sample.request Sample.start).1 = 500 /\
  places_cache
    (@GET Sample.runtime
       (Fixtures.E_failing UpsertCafes (FetchOk (Some Sample.two_places)))
       Sample.request Sample.start).2 !! Sample.key = None.
Proof.
  destruct (@GET_places_upsert_failure Sample.runtime
              (Fixtures.E_failing UpsertCafes (FetchOk (Some Sample.two_places)))
              Sample.request Sample.start 37.7749%Q (-122.4194)%Q
              (Some Sample.two_places)
              {| message := Some "store unavailable"%string |})
    as (_ & Hst & Htables).
  - vm_compute. reflexivity.
  - vm_compute. reflexivity.
  - reflexivity.
  - vm_compute. reflexivity.
  - reflexivity.
  - exists "p1"%string, (Sample.place "p1" 37.7751%Q (-122.4190)%Q
                        (Some "PRICE_LEVEL_VERY_EXPENSIVE"%string)).
    split; [left |]. repeat split; [discriminate | eauto].
  - reflexivity.
  - split; [exact Hst |].
    apply (f_equal fst) in Htables. cbn [resolver_tables fst] in Htables.
    rewrite Htables. reflexivity.
Defined.

(** X8. The two writes of a refresh are not one transaction: when the
    places have been upserted and the write of the cache entry then fails,
    the request fails with status 500, the cache is as before, and the
    places stay written. *)
Theorem GET_cache_upsert_failure_keeps_places
    `{Runtime} (E : Environment) (req : Request) (w : World) (lat lng : Q)
    (places : option (list GooglePlace)) (e : Error) :
  toNumber (searchParams req !! "lat"%string) = Some lat ->
  toNumber (searchParams req !! "lng"%string) = Some lng ->
  store_error E SelectPlacesCache = None ->
  usable (places_cache w !! GET_key E req lat lng)
         (clock w + latency E SelectPlacesCache) = false ->
  places_api E lat lng (GET_radiusM req) = FetchOk places ->
  store_error E UpsertCafes = None ->
  store_error E UpsertPlacesCache = Some e ->
  let t := clock w + latency E SelectPlacesCache + latency E FetchPlaces in
  let ups := omap (normalize t) (default [] places) in
  (GET E req w).1 = internal_error e /\
  places_cache (GET E req w).2 = places_cache w /\
  cafes (GET E req w).2 = (foldl (upsert_cafe E) (cafes w, next_id w) ups).1.
Proof.
  intros Hlat Hlng He1 Hus Hapi He2 He3 t ups.
  destruct (GET_upsert_cache_error_run E req w lat lng Hlat Hlng places He1 Hus
              Hapi e (or_intror He2) He3) as (Hr & Hcache & Hcafes & Hw3).
  split; [exact Hr |]. split; [exact Hcache |].
  rewrite Hcafes. exact Hw3.
Qed.

Lemma GET_cache_upsert_failure_keeps_places_witness :
  status (@GET Sample.runtime
            (Fixtures.E_failing UpsertPlacesCache (FetchOk (Some Sample.two_places)))
            Sample.request Sample.start).1 = 500 /\
  is_Some (cafes
             (@GET Sample.runtime
                (Fixtures.E_failing UpsertPlacesCache
                   (FetchOk (Some Sample.two_places)))
                Sample.request Sample.start).2 !! "p1"%string) /\
  places_cache
    (@GET Sample.runtime
       (Fixtures.E_failing UpsertPlacesCache (FetchOk (Some Sample.two_places)))
       Sample.request Sample.start).2 = ∅.
Proof.
  destruct (@GET_cache_upsert_failure_keeps_places Sample.runtime
              (Fixtures.E_failing UpsertPlacesCache (FetchOk (Some Sample.two_places)))
              Sample.request Sample.start 37.7749%Q (-122.4194)%Q
              (Some Sample.two_places)
              {| message := Some "store unavailable"%string |})
    as (Hr & Hcache & Hcafes).
  - vm_compute. reflexivity.
  - vm_compute. reflexivity.
  - reflexivity.
  - vm_compute. reflexivity.
  - reflexivity.
  - reflexivity.
  - reflexivity.
  - split; [rewrite Hr; reflexivity |]. split; [| exact Hcache].
    rewrite Hcafes. vm_compute. eauto.
Defined.

(** ** The hit path and the refresh *)

(** X9. Serving a query from the cache writes nothing: the tables of the
    resolver are as before, the only calls are the lookup and the read of
    the places, and when that read fails the request fails with status 500
    and the message of the store's error. *)
Theorem GET_hit_is_read_only
    `{Runtime} (E : Environment) (req : Request) (w : World) (lat lng : Q) :
  toNumber (searchParams req !! "lat"%string) = Some lat ->
  toNumber (searchParams req !! "lng"%string) = Some lng ->
  store_error E SelectPlacesCache = None ->
  usable (places_cache w !! GET_key E req lat lng)
         (clock w + latency E SelectPlacesCache) = true ->
  resolver_tables (GET E req w).2 = resolver_tables w /\
  (exists ids,
     trace (GET E req w).2 =
       trace w ++ [EvSelectPlacesCache (GET_key E req lat lng);
                   EvSelectCafesIn ids]) /\
  (forall e, store_error E SelectCafesIn = Some e ->
             (GET E req w).1 = internal_error e).
Proof.
  intros Hlat Hlng He Hus.
  rewrite (GET_hit_run E req w lat lng Hlat Hlng He Hus).
  split; [reflexivity |]. split.
  - eexists. cbn [snd await trace set_clock set_trace].
    rewrite <- app_assoc. reflexivity.
  - intros e ->. reflexivity.
Qed.

Lemma GET_hit_is_read_only_witness :
  resolver_tables
    (@GET Sample.runtime (Fixtures.E_failing SelectCafesIn (FetchOk None))
       Sample.request Sample.warm).2 = resolver_tables Sample.warm /\
  status (@GET Sample.runtime (Fixtures.E_failing SelectCafesIn (FetchOk None))
            Sample.request Sample.warm).1 = 500.
Proof.
  destruct (@GET_hit_is_read_only Sample.runtime
              (Fixtures.E_failing SelectCafesIn (FetchOk None))
              Sample.request Sample.warm 37.7749%Q (-122.4194)%Q)
    as (Htables & _ & Herr).
  - vm_compute. reflexivity.
  - vm_compute. reflexivity.
  - reflexivity.
  - vm_compute. reflexivity.
  - split; [exact Htables |].
    rewrite (Herr {| message := Some "store unavailable"%string |} eq_refl).
    reflexivity.
Defined.

Lemma GET_try_emits_upstream `{Runtime} (E : Environment) (req : Request)
    (lat lng : Q) :
  toNumber (searchParams req !! "lat"%string) = Some lat ->
  toNumber (searchParams req !! "lng"%string) = Some lng ->
  emits (upstream_call_ok lat lng) (GET_try E req).
Proof.
  intros Hlat Hlng. unfold GET_try. rewrite Hlat, Hlng. cbv zeta.
  set (P := upstream_call_ok lat lng).
  assert (Hsel : forall ids, emits P (select_cafes_in E ids)).
  { intros ids. apply emits_store_call; [exact I | reflexivity]. }
  apply emits_bind; [apply emits_store_call; [exact I | reflexivity] |].
  intros cacheRow. apply emits_bind; [apply emits_Date_now |]. intros now.
  destruct (usable cacheRow now).
  { apply emits_bind; [apply Hsel | intros; apply emits_ret]. }
  apply emits_bind.
  { unfold searchNearbyPlaces. apply emits_bind.
    - apply emits_await. subst P. cbn [upstream_call_ok].
      split; [reflexivity |]. split; [reflexivity |].
      unfold GET_radiusM. apply clamp_bounds. lra.
    - intros _. destruct (places_api E lat lng (GET_radiusM req));
        [apply emits_ret | apply emits_throw | apply emits_throw]. }
  intros places. apply emits_bind; [apply emits_Date_now |]. intros t.
  apply emits_bind.
  { destruct (_ =? _)%nat; [apply emits_ret |].
    apply emits_store_call; [exact I | reflexivity]. }
  intros _. apply emits_bind; [apply emits_Date_now |]. intros t'.
  apply emits_bind; [apply emits_store_call; [exact I | reflexivity] |].
  intros _. apply emits_bind; [apply Hsel | intros; apply emits_ret].
Qed.

(** X10. Whatever the request, the configuration and the answers of the
    store, a query makes at most one call to the places API; that call
    searches around the coordinates of the query as they were given, not
    rounded, with a radius between 200 and 5000. *)
Theorem GET_at_most_one_upstream_call
    `{Runtime} (E : Environment) (req : Request) (w : World) :
  exists evs,
    trace (GET E req w).2 = trace w ++ evs /\
    (upstream_calls evs <= 1)%nat /\
    (forall lat lng,
       toNumber (searchParams req !! "lat"%string) = Some lat ->
       toNumber (searchParams req !! "lng"%string) = Some lng ->
       Forall (upstream_call_ok lat lng) evs).
Proof.
  destruct (toNumber (searchParams req !! "lat"%string)) as [lat|] eqn:Hlat.
  2: { exists []. rewrite (GET_invalid_run E req w (or_introl Hlat)).
       rewrite app_nil_r. repeat split; [cbn; lia | discriminate]. }
  destruct (toNumber (searchParams req !! "lng"%string)) as [lng|] eqn:Hlng.
  2: { exists []. rewrite (GET_invalid_run E req w (or_intror Hlng)).
       rewrite app_nil_r. repeat split; [cbn; lia | discriminate]. }
  destruct (emits_try_catch _ (GET_try E req) internal_error w
              (GET_try_emits_upstream E req lat lng Hlat Hlng))
    as (evs & Htr & Hok).
  fold (GET E req w) in Htr.
  exists evs. split; [exact Htr |]. split.
  - assert (Hcount : (upstream_calls (trace (GET E req w).2)
                      <= upstream_calls (trace w) + 1)%nat).
    { destruct (store_error E SelectPlacesCache) as [e|] eqn:He.
      - rewrite (GET_lookup_error_run E req w lat lng Hlat Hlng e He).
        count_upstream.
      - destruct (usable (places_cache w !! GET_key E req lat lng)
                         (clock w + latency E SelectPlacesCache)) eqn:Hus.
        + rewrite (GET_hit_run E req w lat lng Hlat Hlng He Hus). count_upstream.
        + rewrite (GET_unusable_calls_upstream E req w lat lng Hlat Hlng He Hus).
          lia. }
    rewrite Htr, upstream_calls_app in Hcount. lia.
  - intros lat' lng' [= <-] [= <-]. exact Hok.
Qed.

(** X11. A refresh replaces the membership of its bucket and touches no
    other bucket: the entry written under the key lists exactly the
    identifiers of the records that normalization keeps (nothing of the old
    entry survives), and the entries under all other keys are as before. *)
Theorem GET_refresh_replaces_bucket
    `{Runtime} (E : Environment) (req : Request) (w : World) (lat lng : Q)
    (places : option (list GooglePlace)) :
  toNumber (searchParams req !! "lat"%string) = Some lat ->
  toNumber (searchParams req !! "lng"%string) = Some lng ->
  store_error E SelectPlacesCache = None ->
  usable (places_cache w !! GET_key E req lat lng)
         (clock w + latency E SelectPlacesCache) = false ->
  places_api E lat lng (GET_radiusM req) = FetchOk places ->
  store_error E UpsertCafes = None ->
  store_error E UpsertPlacesCache = None ->
  (exists row ids,
     places_cache (GET E req w).2 !! GET_key E req lat lng = Some row /\
     place_ids row = Some ids /\
     (forall pid, pid ∈ ids <->
                  exists p, p ∈ default [] places /\ kept_as pid p) /\
     lat_center row = roundCoord lat (GET_precision E) /\
     lng_center row = roundCoord lng (GET_precision E) /\
     radius_m row = GET_radiusM req) /\
  (forall k, k <> GET_key E req lat lng ->
             places_cache (GET E req w).2 !! k = places_cache w !! k).
Proof.
  intros Hlat Hlng He1 Hus Hapi He2 He3.
  destruct (GET_miss_run E req w lat lng places Hlat Hlng He1 Hus Hapi He3
              (or_intror He2)) as (Hcache & _ & _).
  rewrite Hcache. split.
  - eexists _, _. split; [apply lookup_insert_eq |].
    split; [reflexivity |]. split; [| repeat split].
    intros pid. apply elem_of_normalized_ids.
  - intros k Hk. apply lookup_insert_ne. congruence.
Qed.

Lemma GET_refresh_replaces_bucket_witness :
  exists row ids,
    places_cache (@GET Sample.runtime Sample.E_places Sample.request Sample.stale).2
      !! @GET_key Sample.runtime Sample.E_places Sample.request
           37.7749%Q (-122.4194)%Q = Some row /\
    place_ids row = Some ids /\
    "p1"%string ∈ ids /\ ""%string ∉ ids.
Proof.
  destruct (@GET_refresh_replaces_bucket Sample.runtime Sample.E_places
              Sample.request Sample.stale 37.7749%Q (-122.4194)%Q
              (Some Sample.two_places))
    as ((row & ids & Hrow & Hids & Hmem & _) & _).
  - vm_compute. reflexivity.
  - vm_compute. reflexivity.
  - reflexivity.
  - vm_compute. reflexivity.
  - reflexivity.
  - reflexivity.
  - reflexivity.
  - exists row, ids. split; [exact Hrow |]. split; [exact Hids |]. split.
    + apply Hmem. eexists. split; [left |].
      repeat split; [discriminate | eauto].
    + intros Hin. apply Hmem in Hin as (p & _ & _ & Hne & _). contradiction.
Defined.

Lemma new_Date_upper_bound (m : Z) (x : Q) :
  (x <= inject_Z m)%Q -> new_Date x <= m.
Proof.
  unfold new_Date, Qle, inject_Z. destruct x as [a b]. cbn [Qnum Qden].
  intros Hle. rewrite Z.mul_1_r in Hle.
  destruct (Z_le_gt_dec 0 a) as [Ha|Ha].
  - rewrite Z.quot_div_nonneg by lia.
    apply Z.div_le_upper_bound; [lia |]. rewrite Z.mul_comm. exact Hle.
  - rewrite <- (Z.opp_involutive a) at 1. rewrite Z.quot_opp_l by lia.
    rewrite Z.quot_div_nonneg by lia.
    assert (- m <= - a / Z.pos b); [| lia].
    apply Z.div_le_lower_bound; [lia |].
    rewrite Z.mul_opp_r, Z.mul_comm. lia.
Qed.

(** X12. For every finite number that PLACES_CACHE_TTL_SECONDS is set to,
    however small or large, and when it is unset, the cache entry that a
    successful refresh writes expires no sooner than one minute and no
    later than one day after the instant [written] at which the handler
    computes the expiry (its reading of the clock once the places are
    upserted, or once the provider has answered when there is nothing to
    upsert); with the variable unset, exactly fifteen minutes after that
    instant. *)
Theorem GET_refresh_expiry_within_bounds
    `{Runtime} (E : Environment) (req : Request) (w : World) (lat lng : Q)
    (places : option (list GooglePlace)) :
  toNumber (searchParams req !! "lat"%string) = Some lat ->
  toNumber (searchParams req !! "lng"%string) = Some lng ->
  store_error E SelectPlacesCache = None ->
  usable (places_cache w !! GET_key E req lat lng)
         (clock w + latency E SelectPlacesCache) = false ->
  places_api E lat lng (GET_radiusM req) = FetchOk places ->
  store_error E UpsertCafes = None ->
  store_error E UpsertPlacesCache = None ->
  let t := clock w + latency E SelectPlacesCache + latency E FetchPlaces in
  let ups := omap (normalize t) (default [] places) in
  let written := if (length ups =? 0)%nat then t else t + latency E UpsertCafes in
  exists row,
    places_cache (GET E req w).2 !! GET_key E req lat lng = Some row /\
    written + 60000 <= expires_at row /\
    expires_at row <= written + 86400000 /\
    (PLACES_CACHE_TTL_SECONDS E = None ->
     expires_at row = written + 900000).
Proof.
  intros Hlat Hlng He1 Hus Hapi He2 He3 t ups written.
  destruct (GET_miss_run E req w lat lng places Hlat Hlng He1 Hus Hapi He3
              (or_intror He2)) as (Hcache & _ & _).
  rewrite Hcache. eexists. split; [apply lookup_insert_eq |].
  cbn [expires_at refreshed_row]. fold t. fold ups. fold written.
  destruct (GET_ttlSeconds_bounds E) as [Hlo Hhi].
  split; [| split].
  - apply new_Date_lower. rewrite inject_Z_plus.
    change (inject_Z 60000) with 60000%Q. lra.
  - apply new_Date_upper_bound. rewrite inject_Z_plus.
    change (inject_Z 86400000) with 86400000%Q. lra.
  - intros Hunset.
    assert (Httl : GET_ttlSeconds E = 900%Q)
      by (unfold GET_ttlSeconds; rewrite Hunset; reflexivity).
    rewrite Httl.
    assert (Hx : (inject_Z written + 900 * 1000 == inject_Z (written + 900000))%Q)
      by (rewrite inject_Z_plus; change (inject_Z 900000) with 900000%Q; ring).
    pose proof (new_Date_lower (written + 900000) (inject_Z written + 900 * 1000)
                  ltac:(rewrite Hx; apply Qle_refl)).
    pose proof (new_Date_upper_bound (written + 900000)
                  (inject_Z written + 900 * 1000)
                  ltac:(rewrite Hx; apply Qle_refl)).
    lia.
Qed.

(** With the variable set to 5 and every call taking 5 ms from
    1700000000000 on, the expiry is computed at 1700000000015. *)
Lemma GET_refresh_expiry_within_bounds_witness :
  exists row,
    places_cache
      (@GET Sample.runtime
         (Sample.environment (Some 5%Q) None Sample.no_error 5
            (FetchOk (Some Sample.two_places)))
         Sample.request Sample.start).2
      !! @GET_key Sample.runtime
           (Sample.environment (Some 5%Q) None Sample.no_error 5
              (FetchOk (Some Sample.two_places)))
           Sample.request 37.7749%Q (-122.4194)%Q = Some row /\
    1700000000015 + 60000 <= expires_at row /\
    expires_at row <= 1700000000015 + 86400000.
Proof.
  destruct (@GET_refresh_expiry_within_bounds Sample.runtime
              (Sample.environment (Some 5%Q) None Sample.no_error 5
                 (FetchOk (Some Sample.two_places)))
              Sample.request Sample.start 37.7749%Q (-122.4194)%Q
              (Some Sample.two_places))
    as (row & Hrow & Hlo & Hhi & _).
  - vm_compute. reflexivity.
  - vm_compute. reflexivity.
  - reflexivity.
  - vm_compute. reflexivity.
  - reflexivity.
  - reflexivity.
  - reflexivity.
  - exists row. split; [exact Hrow |]. split; [exact Hlo | exact Hhi].
Defined.

(** X13. A refresh followed by the same query: when a refresh has kept at
    least one place and the next query arrives before the new entry expires
    (here: the remaining calls of the first request and the lookup of the
    second take less than a minute together), the second query is served
    from the cache, with the very places the first one returned, and
    without a call to the places API. *)
Theorem GET_refresh_then_hit
    `{Runtime} (E : Environment) (req : Request) (w : World) (lat lng : Q)
    (places : option (list GooglePlace)) :
  toNumber (searchParams req !! "lat"%string) = Some lat ->
  toNumber (searchParams req !! "lng"%string) = Some lng ->
  (forall c, store_error E c = None) ->
  usable (places_cache w !! GET_key E req lat lng)
         (clock w + latency E SelectPlacesCache) = false ->
  places_api E lat lng (GET_radiusM req) = FetchOk places ->
  (exists pid p, p ∈ default [] places /\ kept_as pid p) ->
  latency E UpsertPlacesCache + latency E SelectCafesIn
    + latency E SelectPlacesCache < 60000 ->
  let first := GET E req w in
  let second := GET E req first.2 in
  source_of first.1 = Some "google"%string /\
  source_of second.1 = Some "cache"%string /\
  cafes_of second.1 = cafes_of first.1 /\
  upstream_calls (trace second.2) = upstream_calls (trace first.2).
Proof.
  intros Hlat Hlng Hok Hus Hapi Hkept Hfast first second.
  pose proof (GET_miss_run E req w lat lng places Hlat Hlng
                (Hok SelectPlacesCache) Hus Hapi (Hok UpsertPlacesCache)
                (or_intror (Hok UpsertCafes))) as Hrun.
  cbv zeta in Hrun. destruct Hrun as (Hcache & _ & Hr).
  pose proof (GET_miss_clock E req w lat lng Hlat Hlng places
                (Hok SelectPlacesCache) Hus Hapi
                (or_intror (Hok UpsertCafes)) (Hok UpsertPlacesCache)) as Hclock.
  rewrite (Hok SelectCafesIn) in Hr. fold first in Hcache, Hr, Hclock.
  set (t := clock w + latency E SelectPlacesCache + latency E FetchPlaces) in *.
  set (ups := omap (normalize t) (default [] places)) in *.
  change (clock (await E FetchPlaces (EvFetchPlaces lat lng (GET_radiusM req))
                   (await E SelectPlacesCache
                      (EvSelectPlacesCache (GET_key E req lat lng)) w).2).2)
    with t in Hclock. fold ups in Hclock.
  set (t' := if (length ups =? 0)%nat then t else t + latency E UpsertCafes) in *.
  set (row := refreshed_row E req lat lng (place_id <$> ups) t') in *.
  assert (Hlook : places_cache first.2 !! GET_key E req lat lng = Some row)
    by (rewrite Hcache; apply lookup_insert_eq).
  assert (Hne : place_id <$> ups <> []).
  { intros Hnil. apply fmap_nil_inv in Hnil.
    exact (normalized_nonempty t _ Hkept Hnil). }
  assert (Hus2 : usable (places_cache first.2 !! GET_key E req lat lng)
                        (clock first.2 + latency E SelectPlacesCache) = true).
  { rewrite Hlook. apply usable_true. exists row, (place_id <$> ups).
    split; [reflexivity |]. split; [| split; [reflexivity | exact Hne]].
    pose proof (refreshed_row_expires E req lat lng (place_id <$> ups) t').
    fold row in H0. lia. }
  pose proof (GET_hit_run E req first.2 lat lng Hlat Hlng
                (Hok SelectPlacesCache) Hus2) as Hrun2.
  cbv zeta in Hrun2. rewrite (Hok SelectCafesIn), Hlook in Hrun2.
  fold second in Hrun2.
  split; [rewrite Hr; reflexivity |].
  rewrite Hrun2. split; [reflexivity |]. split.
  - rewrite Hr. reflexivity.
  - count_upstream.
Qed.

Lemma GET_refresh_then_hit_witness :
  source_of
    (@GET Sample.runtime Sample.E_places Sample.request
       (@GET Sample.runtime Sample.E_places Sample.request Sample.start).2).1
  = Some "cache"%string /\
  cafes_of
    (@GET Sample.runtime Sample.E_places Sample.request
       (@GET Sample.runtime Sample.E_places Sample.request Sample.start).2).1
  = cafes_of (@GET Sample.runtime Sample.E_places Sample.request Sample.start).1.
Proof.
  destruct (@GET_refresh_then_hit Sample.runtime Sample.E_places
              Sample.request Sample.start 37.7749%Q (-122.4194)%Q
              (Some Sample.two_places))
    as (_ & Hsrc & Hsame & _).
  - vm_compute. reflexivity.
  - vm_compute. reflexivity.
  - intros c. reflexivity.
  - vm_compute. reflexivity.
  - reflexivity.
  - exists "p1"%string, (Sample.place "p1" 37.7751%Q (-122.4190)%Q
                        (Some "PRICE_LEVEL_VERY_EXPENSIVE"%string)).
    split; [left |]. repeat split; [discriminate | eauto].
  - vm_compute. reflexivity.
  - split; assumption.
Defined.

(** ** The upsert of the places and the read-back *)

Lemma upsert_cafe_lookup_same (E : Environment)
    (acc : gmap string CafeRow * nat) (u : CafeUpsert) :
  exists i,
    (upsert_cafe E acc u).1 !! place_id u =
      Some {| id := i; row_fields := up_fields u;
              last_fetched_at := up_last_fetched_at u;
              updated_at := up_updated_at u |} /\
    (forall old, acc.1 !! place_id u = Some old -> i = id old).
Proof.
  unfold upsert_cafe. destruct (acc.1 !! place_id u) as [old|] eqn:Hold.
  - exists (id old). cbn [fst]. rewrite lookup_insert_eq.
    split; [reflexivity |]. intros ? [= <-]. reflexivity.
  - eexists. cbn [fst]. rewrite lookup_insert_eq.
    split; [reflexivity |]. discriminate.
Qed.

Lemma upsert_cafe_lookup_other (E : Environment)
    (acc : gmap string CafeRow * nat) (u : CafeUpsert) (pid : string) :
  pid <> place_id u -> (upsert_cafe E acc u).1 !! pid = acc.1 !! pid.
Proof.
  intros Hne. unfold upsert_cafe.
  destruct (acc.1 !! place_id u); cbn [fst]; apply lookup_insert_ne; congruence.
Qed.

Lemma upsert_cafes_lookup_other (E : Environment) (ups : list CafeUpsert)
    (acc : gmap string CafeRow * nat) (pid : string) :
  pid ∉ place_id <$> ups ->
  (foldl (upsert_cafe E) acc ups).1 !! pid = acc.1 !! pid.
Proof.
  revert acc. induction ups as [|u ups IH]; intros acc Hnin; [reflexivity |].
  cbn [foldl]. rewrite fmap_cons in Hnin. apply not_elem_of_cons in Hnin as [Hne Hnin].
  rewrite IH by exact Hnin. apply upsert_cafe_lookup_other. exact Hne.
Qed.

Lemma upsert_cafes_lookup (E : Environment) (ups : list CafeUpsert)
    (acc : gmap string CafeRow * nat) (u : CafeUpsert) :
  NoDup (place_id <$> ups) -> u ∈ ups ->
  exists i,
    (foldl (upsert_cafe E) acc ups).1 !! place_id u =
      Some {| id := i; row_fields := up_fields u;
              last_fetched_at := up_last_fetched_at u;
              updated_at := up_updated_at u |} /\
    (forall old, acc.1 !! place_id u = Some old -> i = id old).
Proof.
  revert acc. induction ups as [|x ups IH]; intros acc Hnd Hin; [inversion Hin |].
  rewrite fmap_cons in Hnd. apply NoDup_cons in Hnd as [Hx Hnd].
  cbn [foldl]. apply elem_of_cons in Hin as [-> | Hin].
  - rewrite upsert_cafes_lookup_other by exact Hx.
    apply upsert_cafe_lookup_same.
  - destruct (IH (upsert_cafe E acc x) Hnd Hin) as (i & Hi & Hold).
    exists i. split; [exact Hi |]. intros old Ho. apply Hold.
    rewrite upsert_cafe_lookup_other; [exact Ho |].
    intros Heq. apply Hx. rewrite <- Heq. apply list_elem_of_fmap_2. exact Hin.
Qed.

(** X14. What a refresh returns is what it has stored: when the kept
    records have pairwise distinct identifiers, the result contains, for
    each of them, a place with its identifier and its normalized fields; a
    place that was already stored keeps its [id]; the result contains no
    other place; and the stored places with other identifiers are as
    before. *)
Theorem GET_refresh_reads_back_what_it_wrote
    `{Runtime} (E : Environment) (req : Request) (w : World) (lat lng : Q)
    (places : option (list GooglePlace)) :
  toNumber (searchParams req !! "lat"%string) = Some lat ->
  toNumber (searchParams req !! "lng"%string) = Some lng ->
  (forall c, store_error E c = None) ->
  usable (places_cache w !! GET_key E req lat lng)
         (clock w + latency E SelectPlacesCache) = false ->
  places_api E lat lng (GET_radiusM req) = FetchOk places ->
  let t := clock w + latency E SelectPlacesCache + latency E FetchPlaces in
  let ups := omap (normalize t) (default [] places) in
  NoDup (place_id <$> ups) ->
  (forall u, u ∈ ups ->
     exists c, c ∈ cafes_of (GET E req w).1 /\
               cafe_place_id c = place_id u /\
               cafe_fields c = up_fields u /\
               (forall old, cafes w !! place_id u = Some old ->
                            cafe_id c = id old)) /\
  (forall c, c ∈ cafes_of (GET E req w).1 ->
             exists u, u ∈ ups /\ cafe_place_id c = place_id u) /\
  (forall pid, pid ∉ place_id <$> ups ->
               cafes (GET E req w).2 !! pid = cafes w !! pid).
Proof.
  intros Hlat Hlng Hok Hus Hapi t ups Hnd.
  pose proof (GET_miss_run E req w lat lng places Hlat Hlng
                (Hok SelectPlacesCache) Hus Hapi (Hok UpsertPlacesCache)
                (or_intror (Hok UpsertCafes))) as Hrun.
  cbv zeta in Hrun. destruct Hrun as (_ & Hcafes & Hr).
  rewrite (Hok SelectCafesIn) in Hr. fold t in Hcafes, Hr. fold ups in Hcafes, Hr.
  rewrite Hr. cbn [cafes_of body json_response]. rewrite Hcafes.
  split; [| split].
  - intros u Hu.
    destruct (upsert_cafes_lookup E ups (cafes w, next_id w) u Hnd Hu)
      as (i & Hi & Hold).
    exists {| cafe_id := i; cafe_place_id := place_id u;
              cafe_fields := up_fields u |}.
    split; [| repeat split].
    + apply elem_of_cafes_in. cbn [cafe_place_id cafe_id cafe_fields].
      split; [apply list_elem_of_fmap_2; exact Hu |].
      eexists. split; [exact Hi |]. split; reflexivity.
    + intros old Ho. cbn [cafe_id]. apply Hold. exact Ho.
  - intros c Hc. apply elem_of_cafes_in in Hc as [Hin _].
    apply list_elem_of_fmap in Hin as (u & Hu1 & Hu2). eauto.
  - intros pid Hnin. apply (upsert_cafes_lookup_other E ups (cafes w, next_id w)).
    exact Hnin.
Qed.

Lemma GET_refresh_reads_back_what_it_wrote_witness :
  exists c,
    c ∈ cafes_of (@GET Sample.runtime Sample.E_places Sample.request Sample.stale).1 /\
    cafe_place_id c = "p1"%string /\
    cafe_id c = "row-0"%string.
Proof.
  destruct (@GET_refresh_reads_back_what_it_wrote Sample.runtime Sample.E_places
              Sample.request Sample.stale 37.7749%Q (-122.4194)%Q
              (Some Sample.two_places))
    as (Hall & _ & _).
  - vm_compute. reflexivity.
  - vm_compute. reflexivity.
  - intros c. reflexivity.
  - vm_compute. reflexivity.
  - reflexivity.
  - vm_compute. apply NoDup_singleton.
  - pose (u := {| place_id := "p1"%string;
                  up_fields :=
                    {| name := "Cafe p1"; address := None;
                       lat := 37.7751%Q; lng := (-122.4190)%Q;
                       google_rating := Some 4.5%Q;
                       user_ratings_total := Some 12%Q;
                       price_level := Some 3; types := Some ["cafe"%string] |};
                  up_last_fetched_at := 1700003600035;
                  up_updated_at := 1700003600035 |}).
    destruct (Hall u) as (c & Hc & Hpid & _ & Hid); [vm_compute; left |].
    assert (Hold : exists old, cafes Sample.stale !! "p1"%string = Some old /\
                               id old = "row-0"%string)
      by (vm_compute; eauto).
    destruct Hold as (old & Hold & Hrow0).
    exists c. split; [exact Hc |]. split; [exact Hpid |].
    rewrite (Hid old Hold). exact Hrow0.
Defined.

(** ** What a handler leaves alone *)

Section Preserves.

Context {X : Type} (f : World -> X).
Hypothesis f_clock : forall t w, f (set_clock t w) = f w.
Hypothesis f_trace : forall tr w, f (set_trace tr w) = f w.

Lemma preserves_ret {A} (a : A) : preserves f (ret a).
Proof. intros w. reflexivity. Qed.

Lemma preserves_throw {A} (e : Error) : preserves f (@throw A e).
Proof. intros w. reflexivity. Qed.

Lemma preserves_Date_now : preserves f Date_now.
Proof. intros w. reflexivity. Qed.

Lemma preserves_bind {A B} (m : M A) (k : A -> M B) :
  preserves f m -> (forall a, preserves f (k a)) -> preserves f (bind m k).
Proof.
  intros Hm Hk w. unfold bind. specialize (Hm w).
  destruct (m w) as [[a|e] w1]; cbn [snd] in *; [| exact Hm].
  rewrite (Hk a w1). exact Hm.
Qed.

Lemma preserves_await (E : Environment) (c : Call) (ev : Event) :
  preserves f (await E c ev).
Proof. intros w. cbn [await snd]. rewrite f_clock, f_trace. reflexivity. Qed.

Lemma preserves_store_call {A} (E : Environment) (c : Call) (ev : Event)
    (data : M A) :
  preserves f data -> preserves f (store_call E c ev data).
Proof.
  intros Hdata. unfold store_call. apply preserves_bind.
  - apply preserves_await.
  - intros _. unfold or_throw.
    destruct (store_error E c); [apply preserves_throw | exact Hdata].
Qed.

Lemma preserves_try_catch {A} (m : M A) (h : Error -> A) (w : World) :
  preserves f m -> f (try_catch m h w).2 = f w.
Proof.
  intros Hm. unfold try_catch. specialize (Hm w).
  destruct (m w) as [[a|e] w1]; exact Hm.
Qed.

Lemma GET_try_preserves `{Runtime} (E : Environment) (req : Request) :
  (forall m n w, f (set_cafes m n w) = f w) ->
  (forall m w, f (set_places_cache m w) = f w) ->
  preserves f (GET_try E req).
Proof.
  intros f_cafes f_cache. unfold GET_try.
  destruct (toNumber (searchParams req !! "lat"%string)) as [lat|];
    [| apply preserves_ret].
  destruct (toNumber (searchParams req !! "lng"%string)) as [lng|];
    [| apply preserves_ret].
  cbv zeta.
  assert (Hsel : forall ids, preserves f (select_cafes_in E ids)).
  { intros ids. apply preserves_store_call. intros w. reflexivity. }
  apply preserves_bind; [apply preserves_store_call; intros w; reflexivity |].
  intros cacheRow. apply preserves_bind; [apply preserves_Date_now |]. intros now.
  destruct (usable cacheRow now).
  { apply preserves_bind; [apply Hsel | intros; apply preserves_ret]. }
  apply preserves_bind.
  { unfold searchNearbyPlaces. apply preserves_bind; [apply preserves_await |].
    intros _. destruct (places_api E lat lng (GET_radiusM req));
      [apply preserves_ret | apply preserves_throw | apply preserves_throw]. }
  intros places. apply preserves_bind; [apply preserves_Date_now |]. intros t.
  apply preserves_bind.
  { destruct (_ =? _)%nat; [apply preserves_ret |].
    apply preserves_store_call. intros w. cbn [snd]. apply f_cafes. }
  intros _. apply preserves_bind; [apply preserves_Date_now |]. intros t'.
  apply preserves_bind.
  { apply preserves_store_call. intros w. cbn [snd]. apply f_cache. }
  intros _. apply preserves_bind; [apply Hsel | intros; apply preserves_ret].
Qed.

Lemma enforceRateLimit_preserves `{Runtime} (E : Environment) (req : Request)
    (route : string) (limit windowSeconds : Z) :
  (forall m w, f (set_rate_limits m w) = f w) ->
  preserves f (enforceRateLimit E req route limit windowSeconds).
Proof.
  intros f_rl. unfold enforceRateLimit. apply preserves_bind.
  - apply preserves_store_call. intros w. cbn [snd]. apply f_rl.
  - intros data. apply preserves_bind; [apply preserves_Date_now |].
    intros now. apply preserves_ret.
Qed.

Lemma POST_try_preserves `{Runtime} (E : Environment) (req : Request) :
  (forall m w, f (set_rate_limits m w) = f w) ->
  (forall l n w, f (set_checkins l n w) = f w) ->
  preserves f (POST_try E req).
Proof.
  intros f_rl f_checkins. unfold POST_try.
  apply preserves_bind; [apply enforceRateLimit_preserves; exact f_rl |].
  intros rl. destruct (negb (allowed rl)).
  { apply preserves_bind; [apply preserves_Date_now | intros; apply preserves_ret]. }
  destruct (json req) as [e|[[[|a s]|]|]];
    try apply preserves_throw; try apply preserves_ret.
  apply preserves_bind; [apply preserves_store_call; intros w; reflexivity |].
  intros [c|]; [| apply preserves_ret].
  apply preserves_bind; [apply preserves_Date_now |]. intros now.
  apply preserves_bind; [| intros; apply preserves_ret].
  apply preserves_store_call. intros w. cbn [snd]. apply f_checkins.
Qed.

End Preserves.

(** X15. The two handlers keep to their own tables, whatever the request
    and whatever fails: a query for nearby cafes never changes the
    check-ins nor the rate-limit counters, and a check-in never changes the
    stored places nor the cache. *)
Theorem handlers_keep_to_their_tables
    `{Runtime} (E : Environment) (req : Request) (w : World) :
  checkins (GET E req w).2 = checkins w /\
  rate_limits (GET E req w).2 = rate_limits w /\
  cafes (POST E req w).2 = cafes w /\
  places_cache (POST E req w).2 = places_cache w.
Proof.
  repeat split.
  - apply (preserves_try_catch checkins), GET_try_preserves; reflexivity.
  - apply (preserves_try_catch rate_limits), GET_try_preserves; reflexivity.
  - apply (preserves_try_catch cafes), POST_try_preserves; reflexivity.
  - apply (preserves_try_catch places_cache), POST_try_preserves; reflexivity.
Qed.

(** ** The rate limiter and the check-in handler *)

(** X16. The limiter never allows on its own account. A result with
    [allowed = true] comes from a row of the store's answer that says so;
    when the answer carries no row at all ([null], an empty array) the
    result denies the request, with [used = 0], the limit of the caller and
    a reset time one window after the current time. *)
Theorem enforceRateLimit_allows_only_on_the_stores_word
    `{Runtime} (E : Environment) (req : Request) (route : string)
    (limit windowSeconds : Z) (w : World) (rl : RateLimitResult) (w' : World) :
  enforceRateLimit E req route limit windowSeconds w = (Returned rl, w') ->
  let now := clock w + latency E RpcRateLimitHit in
  let data := (rate_limit_hit E route (sha256Base64Url (getClientIp req))
                 windowSeconds limit now (rate_limits w)).1 in
  (allowed rl = true ->
   exists row, (data = DataObject row \/ exists rest, data = DataArray (row :: rest))
               /\ rl_allowed row = Some true) /\
  (data = DataNull \/ data = DataArray [] ->
   rl = {| allowed := false; used := 0; limit := limit;
           resetAt := now + windowSeconds * 1000 |}).
Proof.
  intros Hrun now data.
  destruct (store_error E RpcRateLimitHit) as [e|] eqn:He.
  { unfold enforceRateLimit in Hrun.
    erewrite bind_thrown in Hrun by (apply store_call_error; exact He).
    discriminate Hrun. }
  rewrite (enforceRateLimit_ok E req route limit windowSeconds w He) in Hrun.
  cbn [await snd clock rate_limits set_clock set_trace] in Hrun.
  fold now in Hrun. fold data in Hrun.
  injection Hrun as <- _. cbn [allowed]. split.
  - destruct data as [[|row rest]| row |]; cbn; try discriminate.
    + intros Ha. exists row. split; [right; eauto |].
      destruct (rl_allowed row) as [[|]|]; try discriminate. reflexivity.
    + intros Ha. exists row. split; [left; reflexivity |].
      destruct (rl_allowed row) as [[|]|]; try discriminate. reflexivity.
  - intros [-> | ->]; reflexivity.
Qed.

Lemma enforceRateLimit_allows_only_on_the_stores_word_witness :
  (@enforceRateLimit Sample.runtime (Fixtures.E_rpc DataNull)
     (Sample.checkin ∅ "row-0") "POST /api/checkins" 10 60 Sample.start).1
  = Returned {| allowed := false; used := 0; limit := 10;
                resetAt := 1700000060005 |}.
Proof.
  destruct (@enforceRateLimit Sample.runtime (Fixtures.E_rpc DataNull)
              (Sample.checkin ∅ "row-0") "POST /api/checkins" 10 60 Sample.start)
    as [[rl|e] w'] eqn:Hrun; [| vm_compute in Hrun; discriminate Hrun].
  destruct (@enforceRateLimit_allows_only_on_the_stores_word Sample.runtime
              (Fixtures.E_rpc DataNull) (Sample.checkin ∅ "row-0")
              "POST /api/checkins" 10 60 Sample.start rl w' Hrun)
    as [_ Hnone].
  cbn [fst]. rewrite Hnone by (left; reflexivity). reflexivity.
Defined.

Lemma POST_denied_run
    `{Runtime} (E : Environment) (req : Request) (w : World)
    (rl : RateLimitResult) (w1 : World) :
  enforceRateLimit E req "POST /api/checkins" 10 60 w = (Returned rl, w1) ->
  allowed rl = false ->
  POST E req w =
  ({| status := 429;
      retry_after :=
        Some (Math_max 1 (Math_ceil (inject_Z (resetAt rl - clock w1) / 1000)%Q));
      body := RateLimitBody "Rate limit exceeded" (used rl) (limit rl)
                (resetAt rl) |}, w1).
Proof.
  intros Hrun Hdenied. unfold POST, try_catch, POST_try.
  erewrite bind_returned by exact Hrun. rewrite Hdenied. reflexivity.
Qed.

(** X17. A denied check-in is answered with 429 and the figures of the
    limiter; its Retry-After is a whole number of seconds, at least 1, that
    reaches the reset time. Nothing else is done: no call follows the
    rate-limit decision and no check-in is recorded. *)
Theorem POST_denied
    `{Runtime} (E : Environment) (req : Request) (w : World)
    (rl : RateLimitResult) (w1 : World) :
  enforceRateLimit E req "POST /api/checkins" 10 60 w = (Returned rl, w1) ->
  allowed rl = false ->
  (POST E req w).2 = w1 /\
  status (POST E req w).1 = 429 /\
  body (POST E req w).1 =
    RateLimitBody "Rate limit exceeded" (used rl) (limit rl) (resetAt rl) /\
  (exists k : Z,
     retry_after (POST E req w).1 = Some (inject_Z k) /\
     1 <= k /\ resetAt rl - clock w1 <= k * 1000) /\
  trace w1 = trace w ++ [EvRateLimitHit "POST /api/checkins"
                           (sha256Base64Url (getClientIp req)) 60 10] /\
  checkins w1 = checkins w.
Proof.
  intros Hrun Hdenied.
  pose proof (enforceRateLimit_trace E req "POST /api/checkins" 10 60 w) as Htr.
  pose proof (enforceRateLimit_preserves checkins
                ltac:(reflexivity) ltac:(reflexivity) E req
                "POST /api/checkins" 10 60 ltac:(reflexivity) w) as Hck.
  rewrite Hrun in Htr, Hck. cbn [snd] in Htr, Hck.
  rewrite (POST_denied_run E req w rl w1 Hrun Hdenied).
  cbn [fst snd status body retry_after].
  repeat split; try assumption.
  set (x := (inject_Z (resetAt rl - clock w1) / 1000)%Q).
  assert (Hx : (inject_Z (resetAt rl - clock w1) == x * 1000)%Q)
    by (subst x; field).
  pose proof (Qle_ceiling x) as Hceil.
  unfold Math_max, Math_ceil.
  destruct (Q.max_spec 1 (inject_Z (Qceiling x))) as [[Hlt Hmax]|[Hle Hmax]].
  - exists (Qceiling x). split.
    + f_equal. unfold Qmax, GenericMinMax.gmax.
      destruct (1 ?= inject_Z (Qceiling x))%Q eqn:Hc; try reflexivity.
      * apply Qeq_alt in Hc. lra.
      * apply Qgt_alt in Hc. lra.
    + change 1%Q with (inject_Z 1) in Hlt. rewrite <- Zlt_Qlt in Hlt.
      split; [lia |].
      rewrite Zle_Qle, inject_Z_mult. change (inject_Z 1000) with 1000%Q.
      rewrite Hx. lra.
  - exists 1. split.
    + f_equal. unfold Qmax, GenericMinMax.gmax.
      destruct (1 ?= inject_Z (Qceiling x))%Q eqn:Hc; try reflexivity.
      apply Qlt_alt in Hc. lra.
    + split; [lia |].
      rewrite Zle_Qle, inject_Z_mult. change (inject_Z 1000) with 1000%Q.
      change (inject_Z 1) with 1%Q. rewrite Hx. lra.
Qed.

Lemma POST_denied_witness :
  status (@POST Sample.runtime (Fixtures.E_rpc Fixtures.denied)
            (Sample.checkin ∅ "row-0") Sample.start).1 = 429 /\
  retry_after (@POST Sample.runtime (Fixtures.E_rpc Fixtures.denied)
                 (Sample.checkin ∅ "row-0") Sample.start).1 = Some 30%Q /\
  checkins (@POST Sample.runtime (Fixtures.E_rpc Fixtures.denied)
              (Sample.checkin ∅ "row-0") Sample.start).2 = [].
Proof.
  destruct (@enforceRateLimit Sample.runtime (Fixtures.E_rpc Fixtures.denied)
              (Sample.checkin ∅ "row-0") "POST /api/checkins" 10 60 Sample.start)
    as [[rl|e] w1] eqn:Hrun; [| vm_compute in Hrun; discriminate Hrun].
  destruct (@POST_denied Sample.runtime (Fixtures.E_rpc Fixtures.denied)
              (Sample.checkin ∅ "row-0") Sample.start rl w1 Hrun)
    as (Hw & Hst & _ & _ & _ & Hck).
  - vm_compute in Hrun. injection Hrun as <- _. reflexivity.
  - split; [exact Hst |]. split; [vm_compute; reflexivity |].
    rewrite Hw. exact Hck.
Defined.

Lemma find_cafe_by_id_Some (tbl : gmap string CafeRow) (cafeId : string)
    (kr : string * CafeRow) :
  head (filter (fun kr : string * CafeRow => id kr.2 = cafeId) (map_to_list tbl))
  = Some kr ->
  tbl !! kr.1 = Some kr.2 /\ id kr.2 = cafeId.
Proof.
  intros Hhead. apply head_Some_elem_of in Hhead.
  apply list_elem_of_filter in Hhead as [Hid Hin].
  apply elem_of_map_to_list' in Hin. auto.
Qed.

Lemma find_cafe_by_id_None (tbl : gmap string CafeRow) (cafeId : string) :
  head (filter (fun kr : string * CafeRow => id kr.2 = cafeId) (map_to_list tbl))
  = None ->
  forall pid row, tbl !! pid = Some row -> id row <> cafeId.
Proof.
  intros Hhead pid row Hrow Hid. apply head_None in Hhead.
  assert (Hin : (pid, row) ∈ filter (fun kr : string * CafeRow => id kr.2 = cafeId)
                              (map_to_list tbl)).
  { apply list_elem_of_filter. split; [exact Hid |].
    apply elem_of_map_to_list. exact Hrow. }
  rewrite Hhead in Hin. inversion Hin.
Qed.

Section CheckIn.

Context `{Runtime} (E : Environment) (req : Request) (w : World)
        (rl : RateLimitResult) (w1 : World).
Hypothesis Hrun :
  enforceRateLimit E req "POST /api/checkins" 10 60 w = (Returned rl, w1).
Hypothesis Hallowed : allowed rl = true.

Lemma limiter_world :
  trace w1 = trace w ++ [EvRateLimitHit "POST /api/checkins"
                           (sha256Base64Url (getClientIp req)) 60 10] /\
  checkins w1 = checkins w /\ cafes w1 = cafes w.
Proof.
  pose proof (enforceRateLimit_trace E req "POST /api/checkins" 10 60 w) as Htr.
  pose proof (enforceRateLimit_preserves checkins
                ltac:(reflexivity) ltac:(reflexivity) E req
                "POST /api/checkins" 10 60 ltac:(reflexivity) w) as Hck.
  pose proof (enforceRateLimit_preserves cafes
                ltac:(reflexivity) ltac:(reflexivity) E req
                "POST /api/checkins" 10 60 ltac:(reflexivity) w) as Hcf.
  rewrite Hrun in Htr, Hck, Hcf. auto.
Qed.

Lemma POST_body_run :
  POST E req w =
  try_catch
    match json req with
    | inl e => throw e
    | inr (Some (JString (String a s))) =>
        let! cafe := select_cafe_by_id E (String a s) in
        match cafe with
        | None => ret (json_response 404 (ErrorBody "Cafe not found"))
        | Some _ =>
            let! now := Date_now in
            let! checkIn := insert_checkin E (String a s) now in
            ret (json_response 200 (CheckInBody true checkIn))
        end
    | inr _ => ret (json_response 400 (ErrorBody "Missing or invalid cafeId"))
    end internal_error w1.
Proof.
  unfold POST, try_catch, POST_try.
  erewrite bind_returned by exact Hrun. rewrite Hallowed. reflexivity.
Qed.

End CheckIn.

(** X18. A check-in whose body has no [cafeId], or one that is not a
    string, or the empty string, is answered with 400; a body that cannot be
    read is answered with 500 and the message of the error. In both cases
    the request has already been counted by the limiter, which is the only
    call made, and no check-in is recorded. *)
Theorem POST_invalid_body
    `{Runtime} (E : Environment) (req : Request) (w : World)
    (rl : RateLimitResult) (w1 : World) :
  enforceRateLimit E req "POST /api/checkins" 10 60 w = (Returned rl, w1) ->
  allowed rl = true ->
  (forall a s, json req <> inr (Some (JString (String a s)))) ->
  (POST E req w).2 = w1 /\
  trace w1 = trace w ++ [EvRateLimitHit "POST /api/checkins"
                           (sha256Base64Url (getClientIp req)) 60 10] /\
  checkins w1 = checkins w /\
  (forall e, json req = inl e -> (POST E req w).1 = internal_error e) /\
  (forall v, json req = inr v ->
     (POST E req w).1 = json_response 400 (ErrorBody "Missing or invalid cafeId")).
Proof.
  intros Hrun Hallowed Hbad.
  destruct (limiter_world E req w rl w1 Hrun) as (Htr & Hck & _).
  rewrite (POST_body_run E req w rl w1 Hrun Hallowed).
  destruct (json req) as [e|[[[|a s]|]|]];
    try (exfalso; exact (Hbad a s eq_refl));
    (split; [reflexivity |]); (split; [exact Htr |]); (split; [exact Hck |]);
    split; intros ? [=]; subst; reflexivity.
Qed.

Lemma POST_invalid_body_witness :
  (@POST Sample.runtime Sample.E_places (Sample.checkin ∅ "") Sample.warm).1
  = json_response 400 (ErrorBody "Missing or invalid cafeId") /\
  checkins (@POST Sample.runtime Sample.E_places (Sample.checkin ∅ "")
              Sample.warm).2 = [].
Proof.
  destruct (@enforceRateLimit Sample.runtime Sample.E_places
              (Sample.checkin ∅ "") "POST /api/checkins" 10 60 Sample.warm)
    as [[rl|e] w1] eqn:Hrun; [| vm_compute in Hrun; discriminate Hrun].
  destruct (@POST_invalid_body Sample.runtime Sample.E_places
              (Sample.checkin ∅ "") Sample.warm rl w1 Hrun)
    as (Hw & _ & Hck & _ & H400).
  - vm_compute in Hrun. injection Hrun as <- _. reflexivity.
  - intros a s. discriminate.
  - split; [apply (H400 (Some (JString ""))); reflexivity |].
    rewrite Hw, Hck. reflexivity.
Defined.

(** X19. A check-in for an identifier that no stored cafe has is answered
    with 404 and records nothing; the lookup of the cafe is the only call
    after the rate-limit decision. *)
Theorem POST_unknown_cafe
    `{Runtime} (E : Environment) (req : Request) (w : World)
    (rl : RateLimitResult) (w1 : World) (a : ascii) (s : string) :
  enforceRateLimit E req "POST /api/checkins" 10 60 w = (Returned rl, w1) ->
  allowed rl = true ->
  json req = inr (Some (JString (String a s))) ->
  store_error E SelectCafeById = None ->
  (forall pid row, cafes w !! pid = Some row -> id row <> String a s) ->
  (POST E req w).1 = json_response 404 (ErrorBody "Cafe not found") /\
  checkins (POST E req w).2 = checkins w /\
  trace (POST E req w).2 =
    trace w ++ [EvRateLimitHit "POST /api/checkins"
                  (sha256Base64Url (getClientIp req)) 60 10;
                EvSelectCafeById (String a s)].
Proof.
  intros Hrun Hallowed Hjson He Hnone.
  destruct (limiter_world E req w rl w1 Hrun) as (Htr & Hck & Hcf).
  rewrite (POST_body_run E req w rl w1 Hrun Hallowed), Hjson.
  unfold try_catch, select_cafe_by_id.
  erewrite bind_returned by (rewrite store_call_ok by exact He; reflexivity).
  cbn [await snd cafes set_clock set_trace]. rewrite Hcf.
  destruct (head _) as [kr|] eqn:Hhead.
  { apply find_cafe_by_id_Some in Hhead as [Hrow Hid].
    exfalso. exact (Hnone _ _ Hrow Hid). }
  cbn [fmap option_fmap option_map ret fst snd checkins trace set_clock set_trace].
  rewrite Hck, Htr, <- app_assoc. repeat split; reflexivity.
Qed.

Lemma POST_unknown_cafe_witness :
  status (@POST Sample.runtime Sample.E_places (Sample.checkin ∅ "row-9")
            Sample.warm).1 = 404 /\
  checkins (@POST Sample.runtime Sample.E_places (Sample.checkin ∅ "row-9")
              Sample.warm).2 = [].
Proof.
  destruct (@enforceRateLimit Sample.runtime Sample.E_places
              (Sample.checkin ∅ "row-9") "POST /api/checkins" 10 60 Sample.warm)
    as [[rl|e] w1] eqn:Hrun; [| vm_compute in Hrun; discriminate Hrun].
  destruct (@POST_unknown_cafe Sample.runtime Sample.E_places
              (Sample.checkin ∅ "row-9") Sample.warm rl w1 "r"%char "ow-9" Hrun)
    as (Hr & Hck & _).
  - vm_compute in Hrun. injection Hrun as <- _. reflexivity.
  - reflexivity.
  - reflexivity.
  - intros pid row Hrow.
    refine (find_cafe_by_id_None (cafes Sample.warm) "row-9" _ pid row Hrow).
    vm_compute. reflexivity.
  - split; [rewrite Hr; reflexivity | rewrite Hck; reflexivity].
Defined.

(** X20. A check-in for a stored cafe, the store answering, is answered
    with 200 and the new row: exactly one check-in is appended, for that
    cafe, stamped with the time read before the insert, and the check-ins
    recorded before are kept. *)
Theorem POST_records_check_in
    `{Runtime} (E : Environment) (req : Request) (w : World)
    (rl : RateLimitResult) (w1 : World) (a : ascii) (s : string)
    (pid : string) (row : CafeRow) :
  enforceRateLimit E req "POST /api/checkins" 10 60 w = (Returned rl, w1) ->
  allowed rl = true ->
  json req = inr (Some (JString (String a s))) ->
  store_error E SelectCafeById = None ->
  store_error E InsertCheckin = None ->
  cafes w !! pid = Some row ->
  id row = String a s ->
  exists c,
    (POST E req w).1 = json_response 200 (CheckInBody true c) /\
    checkin_cafe_id c = String a s /\
    created_at c = clock w1 + latency E SelectCafeById /\
    checkins (POST E req w).2 = checkins w ++ [c].
Proof.
  intros Hrun Hallowed Hjson He1 He2 Hrow Hid.
  destruct (limiter_world E req w rl w1 Hrun) as (_ & Hck & Hcf).
  rewrite (POST_body_run E req w rl w1 Hrun Hallowed), Hjson.
  unfold try_catch, select_cafe_by_id.
  erewrite bind_returned by (rewrite store_call_ok by exact He1; reflexivity).
  cbn [await snd cafes set_clock set_trace]. rewrite Hcf.
  destruct (head _) as [kr|] eqn:Hhead.
  2: { exfalso. exact (find_cafe_by_id_None _ _ Hhead pid row Hrow Hid). }
  cbn [fmap option_fmap option_map].
  erewrite bind_returned by reflexivity.
  unfold insert_checkin.
  erewrite bind_returned by (rewrite store_call_ok by exact He2; reflexivity).
  eexists. cbn [ret fst snd]. split; [reflexivity |].
  cbn [checkin_cafe_id created_at checkins await snd set_checkins set_clock
       set_trace clock].
  rewrite Hck. repeat split; reflexivity.
Qed.

Lemma POST_records_check_in_witness :
  exists c,
    (@POST Sample.runtime Sample.E_places (Sample.checkin ∅ "row-0")
       Sample.warm).1 = json_response 200 (CheckInBody true c) /\
    checkins (@POST Sample.runtime Sample.E_places (Sample.checkin ∅ "row-0")
                Sample.warm).2 = [c] /\
    checkin_cafe_id c = "row-0"%string.
Proof.
  destruct (@enforceRateLimit Sample.runtime Sample.E_places
              (Sample.checkin ∅ "row-0") "POST /api/checkins" 10 60 Sample.warm)
    as [[rl|e] w1] eqn:Hrun; [| vm_compute in Hrun; discriminate Hrun].
  assert (Hold : exists row, cafes Sample.warm !! "p1"%string = Some row /\
                             id row = "row-0"%string)
    by (vm_compute; eauto).
  destruct Hold as (row & Hrow & Hid).
  destruct (@POST_records_check_in Sample.runtime Sample.E_places
              (Sample.checkin ∅ "row-0") Sample.warm rl w1 "r"%char "ow-0"
              "p1" row Hrun)
    as (c & Hr & Hc & _ & Hck); try reflexivity; try assumption.
  - vm_compute in Hrun. injection Hrun as <- _. reflexivity.
  - exists c. split; [exact Hr |]. split; [exact Hck | exact Hc].
Defined.

(** X21. A check-in is recorded exactly when the answer is 200: for every
    request and whatever the store does, either the status is 200 and one
    check-in has been appended, which refers to a stored cafe, or the status
    is not 200 and the check-ins are as before. *)
Theorem POST_records_iff_200
    `{Runtime} (E : Environment) (req : Request) (w : World) :
  (status (POST E req w).1 = 200 /\
   exists c, checkins (POST E req w).2 = checkins w ++ [c] /\
             body (POST E req w).1 = CheckInBody true c /\
             exists pid row, cafes w !! pid = Some row /\
                             id row = checkin_cafe_id c) \/
  (status (POST E req w).1 <> 200 /\
   checkins (POST E req w).2 = checkins w).
Proof.
  destruct (enforceRateLimit E req "POST /api/checkins" 10 60 w)
    as [[rl|e] w1] eqn:Hrun.
  2: { right. unfold POST, try_catch, POST_try.
       erewrite bind_thrown by exact Hrun. cbn [fst snd].
       pose proof (enforceRateLimit_preserves checkins
                     ltac:(reflexivity) ltac:(reflexivity) E req
                     "POST /api/checkins" 10 60 ltac:(reflexivity) w) as Hck.
       rewrite Hrun in Hck. split; [discriminate | exact Hck]. }
  destruct (allowed rl) eqn:Hallowed.
  2: { right. rewrite (POST_denied_run E req w rl w1 Hrun Hallowed).
       pose proof (enforceRateLimit_preserves checkins
                     ltac:(reflexivity) ltac:(reflexivity) E req
                     "POST /api/checkins" 10 60 ltac:(reflexivity) w) as Hck.
       rewrite Hrun in Hck. split; [discriminate | exact Hck]. }
  destruct (limiter_world E req w rl w1 Hrun) as (_ & Hck & Hcf).
  rewrite (POST_body_run E req w rl w1 Hrun Hallowed).
  destruct (json req) as [e|[[[|a s]|]|]];
    try (right; split; [discriminate | exact Hck]).
  unfold try_catch, select_cafe_by_id.
  destruct (store_error E SelectCafeById) as [e|] eqn:He1.
  { erewrite bind_thrown by (apply store_call_error; exact He1).
    right. split; [discriminate | exact Hck]. }
  erewrite bind_returned by (rewrite store_call_ok by exact He1; reflexivity).
  cbn [await snd cafes set_clock set_trace]. rewrite Hcf.
  destruct (head _) as [kr|] eqn:Hhead.
  2: { right. split; [discriminate | exact Hck]. }
  apply find_cafe_by_id_Some in Hhead as [Hrow Hid].
  cbn [fmap option_fmap option_map].
  erewrite bind_returned by reflexivity. unfold insert_checkin.
  destruct (store_error E InsertCheckin) as [e|] eqn:He2.
  { erewrite bind_thrown by (apply store_call_error; exact He2).
    right. split; [discriminate | exact Hck]. }
  erewrite bind_returned by (rewrite store_call_ok by exact He2; reflexivity).
  left. split; [reflexivity |]. eexists.
  cbn [ret fst snd checkins await set_checkins set_clock set_trace body
       json_response].
  rewrite Hck. split; [reflexivity |]. split; [reflexivity |].
  exists kr.1, kr.2. split; [exact Hrow | exact Hid].
Qed.

(** ** The client identity *)





Lemma trimEnd_idempotent (s : string) : trimEnd (trimEnd s) = trimEnd s.
Proof.
  induction s as [|a s IH]; [reflexivity |].
  cbn [trimEnd]. destruct (trimEnd s) as [|b r] eqn:Hr.
  - destruct (is_space a) eqn:Ha; [reflexivity |].
    cbn [trimEnd]. rewrite Ha. reflexivity.
  - change (trimEnd (String a (String b r)))
      with (match trimEnd (String b r) with
            | EmptyString =>
                if is_space a then EmptyString else String a EmptyString
            | String c r' => String a (String c r')
            end).
    rewrite IH. reflexivity.
Qed.

Lemma trimStart_clean (s : string) :
  match s with EmptyString => True | String a _ => is_space a = false end ->
  trimStart s = s.
Proof. destruct s as [|a s]; [reflexivity |]. cbn [trimStart]. intros ->. reflexivity. Qed.

Lemma trimStart_is_clean (s : string) :
  match trimStart s with EmptyString => True | String a _ => is_space a = false end.
Proof.
  induction s as [|a s IH]; [exact I |].
  cbn [trimStart]. destruct (is_space a) eqn:Ha; [exact IH | exact Ha].
Qed.

Lemma trimEnd_keeps_clean (s : string) :
  match s with EmptyString => True | String a _ => is_space a = false end ->
  match trimEnd s with EmptyString => True | String a _ => is_space a = false end.
Proof.
  destruct s as [|a s]; [intros _; exact I |].
  intros Ha. cbn [trimEnd]. destruct (trimEnd s); [rewrite Ha |]; exact Ha.
Qed.

Lemma trim_idempotent (s : string) : trim (trim s) = trim s.
Proof.
  unfold trim.
  rewrite (trimStart_clean (trimEnd (trimStart s)))
    by (apply trimEnd_keeps_clean, trimStart_is_clean).
  apply trimEnd_idempotent.
Qed.



(** X23. Without a usable x-forwarded-for (missing or empty) the identity is
    the x-real-ip header, trimmed, when that one is present and not
    empty. *)
Theorem getClientIp_real_ip (req : Request) (realIp : string) :
  headers req !! "x-forwarded-for"%string = None \/
  headers req !! "x-forwarded-for"%string = Some EmptyString ->
  headers req !! "x-real-ip"%string = Some realIp ->
  realIp <> EmptyString ->
  getClientIp req = trim realIp /\ trim (getClientIp req) = getClientIp req.
Proof.
  intros Hxff Hreal Hne.
  assert (Hip : getClientIp req = trim realIp).
  { unfold getClientIp. destruct Hxff as [-> | ->]; rewrite Hreal;
      destruct realIp; try contradiction; reflexivity. }
  rewrite Hip. split; [reflexivity | apply trim_idempotent].
Qed.

Lemma getClientIp_real_ip_witness :
  getClientIp
    {| headers := {[ "x-forwarded-for"%string := ""%string;
                     "x-real-ip"%string := " 198.51.100.4"%string ]};
       searchParams := ∅; json := inr None |}
  = "198.51.100.4"%string.
Proof.
  destruct (getClientIp_real_ip
              {| headers := {[ "x-forwarded-for"%string := ""%string;
                               "x-real-ip"%string := " 198.51.100.4"%string ]};
                 searchParams := ∅; json := inr None |}
              " 198.51.100.4") as [Hip _].
  - right. reflexivity.
  - reflexivity.
  - discriminate.
  - rewrite Hip. reflexivity.
Defined.

(** ** The page *)

Lemma ToIntegerOrInfinity_floor (x : Q) :
  (0 <= x)%Q -> ToIntegerOrInfinity x = Qfloor x.
Proof.
  unfold ToIntegerOrInfinity, Qle. destruct x as [a b]. cbn [Qnum Qden Qfloor].
  intros Ha. apply Z.quot_div_nonneg; lia.
Qed.

Lemma Qfloor_plus_1 (x : Q) : Qfloor (x + 1) = Qfloor x + 1.
Proof.
  apply Qfloor_unique.
  - rewrite inject_Z_plus. change (inject_Z 1) with 1%Q.
    pose proof (Qfloor_le x). lra.
  - rewrite inject_Z_plus. change (inject_Z 1) with 1%Q.
    pose proof (Qlt_floor x) as Hlt. rewrite inject_Z_plus in Hlt.
    change (inject_Z 1) with 1%Q in Hlt. lra.
Qed.

Lemma String_repeat_dollars (count : Q) :
  String_repeat "$" count = dollars (Z.to_nat (ToIntegerOrInfinity count)).
Proof.
  unfold String_repeat, dollars.
  generalize (Z.to_nat (ToIntegerOrInfinity count)). intros n.
  induction n as [|n IH]; [reflexivity |].
  rewrite !Nat.iter_succ, IH. reflexivity.
Qed.

Lemma priceLabel_dollars (level : Q) :
  priceLabel (Some level) =
  dollars (Z.to_nat (Z.max 1 (Z.min 4 (Qfloor level + 1)))).
Proof.
  unfold priceLabel. rewrite String_repeat_dollars. do 2 f_equal.
  change (Math_max 1 (Math_min 4 (level + 1)%Q)) with (clamp (level + 1) 1 4).
  pose proof (Qfloor_le level) as Hlo. pose proof (Qlt_floor level) as Hhi.
  rewrite inject_Z_plus in Hhi. change (inject_Z 1) with 1%Q in Hhi.
  destruct (clamp_spec (level + 1) 1 4 ltac:(lra))
    as [[[H1|H1] ->]|[(H1 & _ & ->)|(H1 & H2 & ->)]].
  - assert (Qfloor level <= 0).
    { assert (Hlt : (inject_Z (Qfloor level) < inject_Z 1)%Q)
        by (change (inject_Z 1) with 1%Q; lra).
      rewrite <- Zlt_Qlt in Hlt. lia. }
    change (ToIntegerOrInfinity 1) with 1. lia.
  - lra.
  - assert (3 <= Qfloor level).
    { assert (Hlt : (inject_Z 2 < inject_Z (Qfloor level))%Q)
        by (change (inject_Z 2) with 2%Q; lra).
      rewrite <- Zlt_Qlt in Hlt. lia. }
    change (ToIntegerOrInfinity 4) with 4. lia.
  - rewrite ToIntegerOrInfinity_floor by lra. rewrite Qfloor_plus_1.
    assert (0 <= Qfloor level).
    { assert (Hlt : (inject_Z (-1) < inject_Z (Qfloor level))%Q)
        by (change (inject_Z (-1)) with (-1)%Q; lra).
      rewrite <- Zlt_Qlt in Hlt. lia. }
    assert (Qfloor level < 3).
    { assert (Hlt : (inject_Z (Qfloor level) < inject_Z 3)%Q)
        by (change (inject_Z 3) with 3%Q; lra).
      rewrite <- Zlt_Qlt in Hlt. lia. }
    lia.
Qed.

(** X24. The price label is "Price ?" only when the level is missing.
    Otherwise it is a run of dollar signs, never fewer than one and never
    more than four: one more than the level for the levels 0 to 3, one for
    anything below, four for anything above. For the level that the
    resolver stores for a provider tier this is one sign more than the
    stored level. *)
Theorem priceLabel_one_to_four_dollars :
  priceLabel None = "Price ?"%string /\
  (forall level : Q,
     exists k, priceLabel (Some level) = dollars k /\ (1 <= k <= 4)%nat) /\
  (forall l : Z, 0 <= l <= 3 ->
     priceLabel (Some (inject_Z l)) = dollars (Z.to_nat (l + 1))) /\
  (forall level : Q, (level <= 0)%Q -> priceLabel (Some level) = dollars 1) /\
  (forall level : Q, (3 <= level)%Q -> priceLabel (Some level) = dollars 4) /\
  (forall tier : option string,
     match priceLevelInt tier with
     | None => priceLabel (inject_Z <$> priceLevelInt tier) = "Price ?"%string
     | Some n => priceLabel (inject_Z <$> priceLevelInt tier)
                 = dollars (Z.to_nat (n + 1))
     end).
Proof.
  split; [reflexivity |]. split; [| split; [| split; [| split]]].
  - intros level. eexists. split; [apply priceLabel_dollars | lia].
  - intros l Hl. rewrite priceLabel_dollars, Qfloor_Z. f_equal. lia.
  - intros level Hle. rewrite priceLabel_dollars.
    pose proof (Qfloor_le level) as Hlo.
    assert (Hlt : (inject_Z (Qfloor level) < inject_Z 1)%Q)
      by (change (inject_Z 1) with 1%Q; lra).
    rewrite <- Zlt_Qlt in Hlt. f_equal. lia.
  - intros level Hle. rewrite priceLabel_dollars.
    assert (Hf : (Qfloor 3 <= Qfloor level)) by (apply Qfloor_resp_le; exact Hle).
    change (Qfloor 3) with 3 in Hf. f_equal. lia.
  - intros tier. destruct (priceLevelInt tier) as [n|] eqn:Hn; [| reflexivity].
    cbn [fmap option_fmap option_map]. rewrite priceLabel_dollars, Qfloor_Z.
    f_equal.
    assert (0 <= n <= 3); [| lia].
    pose proof (priceLevelInt_never_4 tier) as H4. unfold priceLevelInt in *.
    destruct tier as [s|]; [| discriminate].
    destruct (includes s "FREE"); [injection Hn as <-; lia |].
    destruct (includes s "INEXPENSIVE"); [injection Hn as <-; lia |].
    destruct (includes s "MODERATE"); [injection Hn as <-; lia |].
    destruct (includes s "EXPENSIVE"); [injection Hn as <-; lia |].
    destruct (includes s "VERY_EXPENSIVE"); [congruence | discriminate].
Qed.

Lemma priceLabel_one_to_four_dollars_witness :
  priceLabel (Some 2%Q) = "$$$"%string /\ priceLabel (Some 7%Q) = "$$$$"%string.
Proof.
  destruct priceLabel_one_to_four_dollars as (_ & _ & Hexact & _ & Hhigh & _).
  split.
  - change (Some 2%Q) with (Some (inject_Z 2)).
    rewrite (Hexact 2); [reflexivity | lia].
  - rewrite (Hhigh 7%Q); [reflexivity | vm_compute; discriminate].
Defined.

(** *** The sort by rating *)

Lemma by_rating_order (a b : Cafe) :
  Qle_bool (by_rating a b) 0 = true <-> rating_order a b.
Proof.
  rewrite Qle_bool_iff. unfold by_rating, rating_order.
  fold (rating_key a) (rating_key b) (count_key a) (count_key b).
  destruct (Qeq_bool (rating_key b) (rating_key a)) eqn:Heq; cbn [negb].
  - apply Qeq_bool_iff in Heq. split.
    + intros Hle. right. split; [symmetry; exact Heq | lra].
    + intros [Hlt | [_ Hle]]; lra.
  - apply Qeq_bool_neq in Heq. split.
    + intros Hle. left.
      destruct (Qlt_le_dec (rating_key b) (rating_key a)) as [Hlt|Hge];
        [exact Hlt |].
      exfalso. apply Heq. lra.
    + intros [Hlt | [Heq' _]]; [lra |]. exfalso. apply Heq. symmetry. exact Heq'.
Qed.

Lemma rating_order_total (a b : Cafe) : rating_order a b \/ rating_order b a.
Proof.
  unfold rating_order.
  destruct (Q_dec (rating_key a) (rating_key b)) as [[Hlt|Hgt]|Heq]; auto.
  destruct (Qlt_le_dec (count_key a) (count_key b)) as [Hlt|Hge].
  - right. right. split; [symmetry; exact Heq | lra].
  - left. right. split; [exact Heq | exact Hge].
Qed.

Lemma rating_order_trans (a b c : Cafe) :
  rating_order a b -> rating_order b c -> rating_order a c.
Proof.
  unfold rating_order. intros [H1|[H1 H1']] [H2|[H2 H2']].
  - left. lra.
  - left. lra.
  - left. lra.
  - right. split; lra.
Qed.

Lemma insert_by_Permutation {A} (compare : A -> A -> Q) (x : A) (l : list A) :
  Permutation (insert_by compare x l) (x :: l).
Proof.
  induction l as [|y l IH]; [reflexivity |].
  cbn [insert_by]. destruct (Qle_bool (compare x y) 0); [reflexivity |].
  rewrite IH. apply perm_swap.
Qed.

Lemma Array_sort_Permutation {A} (compare : A -> A -> Q) (l : list A) :
  Permutation (Array_sort compare l) l.
Proof.
  induction l as [|x l IH]; [reflexivity |].
  cbn [Array_sort foldr]. fold (Array_sort compare l).
  rewrite insert_by_Permutation, IH. reflexivity.
Qed.

Lemma insert_by_rating_sorted (x : Cafe) (l : list Cafe) :
  StronglySorted rating_order l ->
  StronglySorted rating_order (insert_by by_rating x l).
Proof.
  induction 1 as [|y l Hs IH Hall]; [repeat constructor |].
  cbn [insert_by]. destruct (Qle_bool (by_rating x y) 0) eqn:Hc.
  - apply by_rating_order in Hc. constructor; [constructor; assumption |].
    constructor; [exact Hc |].
    eapply Forall_impl; [exact Hall |]. intros z Hz.
    exact (rating_order_trans x y z Hc Hz).
  - constructor; [exact IH |].
    assert (Hyx : rating_order y x).
    { destruct (rating_order_total x y) as [Hxy|Hyx]; [| exact Hyx].
      apply by_rating_order in Hxy. congruence. }
    rewrite (insert_by_Permutation by_rating x l). constructor; assumption.
Qed.

Lemma Array_sort_by_rating_sorted (l : list Cafe) :
  StronglySorted rating_order (Array_sort by_rating l).
Proof.
  induction l as [|x l IH]; [constructor |].
  cbn [Array_sort foldr]. apply insert_by_rating_sorted. exact IH.
Qed.

(** X25. The list shown under the rating sort is a rearrangement of the
    cafes of the response (none lost, none repeated), in which every cafe
    stands before all the cafes with a lower rating and, at equal rating,
    before those with fewer ratings; a missing rating or count is compared
    as -1. Without a response the list is empty. *)
Theorem cafes_by_rating_sorted (data : option Response) :
  Permutation (cafes_by_rating data) (default [] (cafes_of <$> data)) /\
  StronglySorted rating_order (cafes_by_rating data) /\
  cafes_by_rating None = [].
Proof.
  split; [apply Array_sort_Permutation |]. split; [| reflexivity].
  apply Array_sort_by_rating_sorted.
Qed.

(** X26. When no rating is negative, the cafes without a rating come last
    under the rating sort: the list is the rated cafes, by falling rating,
    followed by the unrated ones. *)
Theorem cafes_by_rating_unrated_last (data : option Response) :
  (forall c r, c ∈ default [] (cafes_of <$> data) ->
               google_rating (cafe_fields c) = Some r -> (0 <= r)%Q) ->
  exists rated unrated,
    cafes_by_rating data = rated ++ unrated /\
    Forall (fun c => is_Some (google_rating (cafe_fields c))) rated /\
    Forall (fun c => google_rating (cafe_fields c) = None) unrated.
Proof.
  intros Hpos.
  assert (Hperm : Permutation (cafes_by_rating data)
                               (default [] (cafes_of <$> data)))
    by apply Array_sort_Permutation.
  assert (Hsorted : StronglySorted rating_order (cafes_by_rating data))
    by apply Array_sort_by_rating_sorted.
  assert (Hpos' : forall c r, c ∈ cafes_by_rating data ->
                    google_rating (cafe_fields c) = Some r -> (0 <= r)%Q).
  { intros c r Hc. apply Hpos. rewrite <- Hperm. exact Hc. }
  clear Hpos Hperm.
  induction Hsorted as [|c l Hs IH Hall].
  - exists [], []. repeat split; constructor.
  - destruct (google_rating (cafe_fields c)) as [r|] eqn:Hr.
    + destruct IH as (rated & unrated & -> & Hrated & Hun).
      { intros c' r' Hc'. apply Hpos'. right. exact Hc'. }
      exists (c :: rated), unrated. repeat split; [| exact Hun].
      constructor; [rewrite Hr; eauto | exact Hrated].
    + exists [], (c :: l). repeat split; [constructor |].
      constructor; [exact Hr |].
      apply Forall_forall. intros c' Hc'.
      rewrite Forall_forall in Hall. specialize (Hall c' Hc').
      destruct (google_rating (cafe_fields c')) as [r'|] eqn:Hr'; [| reflexivity].
      exfalso.
      assert (0 <= r')%Q by (apply (Hpos' c' r'); [right; exact Hc' | exact Hr']).
      unfold rating_order, rating_key in Hall. rewrite Hr, Hr' in Hall.
      cbn [default from_option] in Hall. unfold Datatypes.id in Hall.
      destruct Hall as [Hlt | [Heq _]]; lra.
Qed.

Lemma cafes_by_rating_unrated_last_witness :
  cafes_by_rating
    (Some (json_response 200
             (NearbyBody "cache" "k" 1500%Q
                [ Fixtures.cafe "row-1" "a" None (Some 40%Q);
                  Fixtures.cafe "row-2" "b" (Some 3.9%Q) (Some 12%Q);
                  Fixtures.cafe "row-3" "c" (Some 4.5%Q) None;
                  Fixtures.cafe "row-4" "d" (Some 4.5%Q) (Some 7%Q) ])))
  = [ Fixtures.cafe "row-4" "d" (Some 4.5%Q) (Some 7%Q);
      Fixtures.cafe "row-3" "c" (Some 4.5%Q) None;
      Fixtures.cafe "row-2" "b" (Some 3.9%Q) (Some 12%Q) ]
    ++ [ Fixtures.cafe "row-1" "a" None (Some 40%Q) ].
Proof.
  destruct (cafes_by_rating_unrated_last
              (Some (json_response 200
                       (NearbyBody "cache" "k" 1500%Q
                          [ Fixtures.cafe "row-1" "a" None (Some 40%Q);
                            Fixtures.cafe "row-2" "b" (Some 3.9%Q) (Some 12%Q);
                            Fixtures.cafe "row-3" "c" (Some 4.5%Q) None;
                            Fixtures.cafe "row-4" "d" (Some 4.5%Q) (Some 7%Q) ]))))
    as (rated & unrated & _ & _ & _).
  - intros c r Hc Hr. cbn in Hc.
    repeat (apply elem_of_cons in Hc as [-> | Hc]);
      try (inversion Hc; fail);
      cbn in Hr; try discriminate Hr; injection Hr as <-; vm_compute; discriminate.
  - vm_compute. reflexivity.
Defined.
